(** * rag-mcp-poc: retrieval core of the MCP search/fetch server

    A shallow embedding of the retrieval code of [src/mcp_remote.ts] (the
    remote MCP server: argument normalisation, cosine similarity, source
    weighting, the [search] and [fetch] tool handlers), of the HTTP server
    [scripts/server.ts] and the REPL [scripts/search.ts] (the same scoring
    with an additional heading weight), and of the earlier fetch handler that
    answers a miss without an error flag.

    Modelling choices, all following the TypeScript source:
    - a JS [number] is an IEEE 754 binary64 value: Rocq's primitive [float],
      with the kernel's operations (round to nearest even), so that every
      definition can be evaluated on concrete inputs;
    - a JS string is its sequence of UTF-16 code units ([jsstring]);
    - a value received from a JSON-RPC client is a [JsValue];
    - the embedding provider is a parameter of the handlers, and every call
      made to it is recorded in a trace;
    - an [async] handler with [try]/[catch] is a computation in a small
      monad of outcomes (returned or thrown) over that trace;
    - bounds on rounding errors are stated on the real values [m * 2 ^ e]
      of finite binary64 numbers ([F2R]). *)

From Stdlib Require Import Reals Lra.
From Stdlib Require Import ZArith NArith List String Ascii Bool Lia.
From Stdlib Require Import Floats Sorted Permutation.
Import ListNotations.

#[local] Set Warnings "-inexact-float,-register-all".
#[local] Open Scope bool_scope.

(** ** Strings *)

(** A JavaScript string: a finite sequence of 16-bit code units. *)
Definition jsstring := list N.

(** An ASCII string literal of the source, as code units. *)
Definition lit (s : string) : jsstring :=
  map N_of_ascii (list_ascii_of_string s).

(** [a === b] on strings. *)
Fixpoint str_eqb (a b : jsstring) : bool :=
  match a, b with
  | [], [] => true
  | x :: a', y :: b' => N.eqb x y && str_eqb a' b'
  | _, _ => false
  end.

(** ECMAScript [WhiteSpace] and [LineTerminator] code points: what
    [String.prototype.trim] strips. *)
Definition is_white_space (c : N) : bool :=
  (N.leb 0x9 c && N.leb c 0xD) || N.eqb c 0x20 || N.eqb c 0xA0
  || N.eqb c 0x1680 || (N.leb 0x2000 c && N.leb c 0x200A)
  || N.eqb c 0x2028 || N.eqb c 0x2029 || N.eqb c 0x202F
  || N.eqb c 0x205F || N.eqb c 0x3000 || N.eqb c 0xFEFF.

Fixpoint trimStart (s : jsstring) : jsstring :=
  match s with
  | [] => []
  | c :: s' => if is_white_space c then trimStart s' else s
  end.

Definition trimEnd (s : jsstring) : jsstring := rev (trimStart (rev s)).

(** [s.trim()]. *)
Definition trim (s : jsstring) : jsstring := trimEnd (trimStart s).

Fixpoint startsWith (s p : jsstring) : bool :=
  match p, s with
  | [], _ => true
  | x :: p', y :: s' => N.eqb x y && startsWith s' p'
  | _ :: _, [] => false
  end.

(** [s.includes(sub)]. *)
Fixpoint includes (s sub : jsstring) : bool :=
  startsWith s sub
  || match s with
     | [] => false
     | _ :: s' => includes s' sub
     end.

(** [!s] for a string [s]: only the empty string is falsy. *)
Definition is_empty (s : jsstring) : bool :=
  match s with [] => true | _ :: _ => false end.

(** ** Values received from a client *)

(** What [JSON.parse] of a request can produce, and [undefined] for an
    absent argument.  [JObj] lists the own properties of an object, each key
    once (as [JSON.parse] builds them). *)
Inductive JsValue : Type :=
| JUndefined
| JNull
| JBool (b : bool)
| JNum (x : float)
| JStr (s : jsstring)
| JArr (items : list JsValue)
| JObj (fields : list (jsstring * JsValue)).

Fixpoint lookup (k : jsstring) (fs : list (jsstring * JsValue))
  : option JsValue :=
  match fs with
  | [] => None
  | (k', x) :: fs' => if str_eqb k' k then Some x else lookup k fs'
  end.

(** [k in v], for the keys this module uses ([arguments], [input]): none of
    them is an array index, [length] or a property of [Object.prototype] or
    [Array.prototype], so only an object's own properties can hold them. *)
Definition has_property (k : jsstring) (v : JsValue) : bool :=
  match v with
  | JObj fs => match lookup k fs with Some _ => true | None => false end
  | _ => false
  end.

(** [v.k], for the keys this module uses ([arguments], [input], [query],
    [q], [topK], [id]); an absent property reads as [undefined]. *)
Definition get_property (k : jsstring) (v : JsValue) : JsValue :=
  match v with
  | JObj fs => match lookup k fs with Some x => x | None => JUndefined end
  | _ => JUndefined
  end.

(** [unwrap] of [normalizeSearchArgs] and of [normalizeFetchArgs] (the two
    closures are the same text):
<<
  if (!v || typeof v !== "object") return v;
  if ("arguments" in v) return unwrap(v.arguments);
  if ("input" in v) return unwrap(v.input);
  return v;
>>
    The recursion is on the value of the property found, a part of [v]. *)
Fixpoint unwrap (v : JsValue) : JsValue :=
  match v with
  | JObj fs =>
      let fix unwrap_property (k : jsstring) (l : list (jsstring * JsValue))
        : option JsValue :=
        match l with
        | [] => None
        | (k', x) :: l' =>
            if str_eqb k' k then Some (unwrap x) else unwrap_property k l'
        end in
      match unwrap_property (lit "arguments") fs with
      | Some r => r
      | None =>
          match unwrap_property (lit "input") fs with
          | Some r => r
          | None => v
          end
      end
  | _ => v
  end.

(** ** Numbers *)

(** [Math.trunc x] for a finite [x], as the integer it denotes: the
    significand shifted by the exponent, rounded toward zero. *)
Definition Math_trunc (x : float) : Z :=
  match Prim2SF x with
  | S754_finite s m e =>
      let v := if (0 <=? e)%Z then (Zpos m * 2 ^ e)%Z
               else (Zpos m / 2 ^ (- e))%Z in
      if s then (- v)%Z else v
  | _ => 0%Z
  end.

(** [Number.isFinite x] for a number [x]. *)
Definition Number_isFinite (x : float) : bool := is_finite x.

(** ** Argument normalisation ([src/mcp_remote.ts]) *)

Record SearchArgs : Type := { query : jsstring; topK : Z }.

Definition DEFAULT_TOPK : Z := 8.

(** [normalizeSearchArgs(raw)].  [topK] is an integer-valued number; it is
    kept as the integer it denotes. *)
Definition normalizeSearchArgs (raw : JsValue) : SearchArgs :=
  let v := unwrap raw in
  match v with
  | JStr s => {| query := s; topK := DEFAULT_TOPK |}
  | JObj _ | JArr _ =>
      let q :=
        match get_property (lit "query") v with
        | JStr s => Some s
        | _ =>
            match get_property (lit "q") v with
            | JStr s => Some s
            | _ => None
            end
        end in
      let k :=
        match get_property (lit "topK") v with
        | JNum x =>
            if Number_isFinite x
            then Z.max 1 (Z.min 20 (Math_trunc x))
            else DEFAULT_TOPK
        | _ => DEFAULT_TOPK
        end in
      match q with
      | Some s => {| query := s; topK := k |}
      | None => {| query := []; topK := DEFAULT_TOPK |}
      end
  | _ => {| query := []; topK := DEFAULT_TOPK |}
  end.

(** [normalizeFetchArgs(raw)]. *)
Definition normalizeFetchArgs (raw : JsValue) : jsstring :=
  let v := unwrap raw in
  match v with
  | JStr s => s
  | JObj _ | JArr _ =>
      match get_property (lit "id") v with
      | JStr s => s
      | _ => []
      end
  | _ => []
  end.


(** ** The persisted index *)

Record ChunkMeta : Type :=
  { source : jsstring; heading : jsstring; part : float }.

Record IndexedChunk : Type :=
  { id : jsstring; text : jsstring; meta : ChunkMeta; embedding : list float }.

Record IndexFile : Type := { model : jsstring; chunks : list IndexedChunk }.

(** ** Similarity ([dot], [norm], [cosineSim]: the same text in every
    server of the repository) *)

(** [b[i]] where a number is expected: an index past the end reads
    [undefined], which arithmetic converts to [NaN]. *)
Definition number_at (b : list float) (i : nat) : float :=
  match nth_error b i with
  | Some y => y
  | None => nan
  end.

(** The loop of [dot], entered at index [i] with accumulator [s]; [rest] is
    what remains of [a] from index [i] on, so its head is [a[i]]. *)
Fixpoint dot_loop (s : float) (i : nat) (rest b : list float) : float :=
  match rest with
  | [] => s
  | x :: rest' => dot_loop (s + x * number_at b i)%float (S i) rest' b
  end.

Definition dot (a b : list float) : float := dot_loop 0%float 0 a b.

Definition norm (a : list float) : float := sqrt (dot a a).

Definition cosineSim (a b : list float) : float :=
  let na := norm a in
  let nb := norm b in
  if (na =? 0)%float || (nb =? 0)%float then 0%float
  else (dot a b / (na * nb))%float.

(** ** Arrays *)

Section ArrayMethods.
Context {A : Type}.

(** [Array.prototype.sort(comparefn)].  ECMAScript's [SortCompare] reads
    the comparator's result [v]: [v > 0] puts the first argument after the
    second, and [v = 0] or [NaN] keeps the two in their order.  For a
    comparator that is consistent on the array the result is the one
    stable order, whatever algorithm the engine runs (see
    [stable_descending_unique] below); it is computed here by insertion
    from the right.  For an inconsistent comparator ECMAScript leaves the
    order to the engine. *)
Variable comparefn : A -> A -> float.

Definition sorts_after (x y : A) : bool := (0 <? comparefn x y)%float.

Fixpoint insert (x : A) (l : list A) : list A :=
  match l with
  | [] => [x]
  | y :: l' => if sorts_after x y then y :: insert x l' else x :: l
  end.

Definition Array_sort (l : list A) : list A := fold_right insert [] l.

(** [l.slice(0, k)] for an integer [k]: a negative [k] counts from the
    end. *)
Definition Array_slice0 (k : Z) (l : list A) : list A :=
  if (k <? 0)%Z then firstn (Z.to_nat (Z.of_nat (List.length l) + k)) l
  else firstn (Z.to_nat k) l.
End ArrayMethods.

(** ** Scoring *)

(** The records [{ chunk, score, weighted }] built by every ranking loop. *)
Record Scored : Type :=
  { chunk : IndexedChunk; score : float; weighted : float }.

(** The comparator [(a, b) => b.weighted - a.weighted]. *)
Definition by_weighted_desc (a b : Scored) : float :=
  (weighted b - weighted a)%float.

(** The ranking of [src/mcp_remote.ts]. *)
Module McpRemote.

Definition sourceWeight (source : jsstring) : float :=
  if str_eqb source (lit "docs/api.md") then 1.15%float
  else if str_eqb source (lit "docs/architecture.md") then 1.1%float
  else if str_eqb source (lit "docs/overview.md") then 1.05%float
  else if str_eqb source (lit "docs/faq.md") then 0.95%float
  else 1.0%float.

(** The callback of [index.chunks.map]. *)
Definition score_chunk (qEmb : list float) (c : IndexedChunk) : Scored :=
  let score := cosineSim qEmb (embedding c) in
  let weighted := (score * sourceWeight (source (meta c)))%float in
  {| chunk := c; score := score; weighted := weighted |}.

(** [scored], lines 171-178:
    [index.chunks.map(...).sort(...).slice(0, topK)]. *)
Definition scored (qEmb : list float) (chunks : list IndexedChunk)
  (topK : Z) : list Scored :=
  Array_slice0 topK
    (Array_sort by_weighted_desc (map (score_chunk qEmb) chunks)).

End McpRemote.

(** The ranking of [scripts/server.ts] ([/search] and [/answer]) and of
    [scripts/search.ts], which share [sourceWeight] and [headingWeight]. *)
Module Server.

Definition sourceWeight (source : jsstring) : float :=
  if str_eqb source (lit "docs/api.md") then 1.35%float
  else if str_eqb source (lit "docs/architecture.md") then 1.05%float
  else if str_eqb source (lit "docs/overview.md") then 1.05%float
  else if str_eqb source (lit "docs/faq.md") then 0.95%float
  else 1.0%float.

(** The Japanese literals of [headingWeight], as code units. *)
Definition s_retry : jsstring := [0x30EA; 0x30C8; 0x30E9; 0x30A4]%N.
Definition s_backoff : jsstring :=
  [0x30D0; 0x30C3; 0x30AF; 0x30AA; 0x30D5]%N.
Definition s_auth : jsstring := [0x8A8D; 0x8A3C]%N.

(** [headingWeight(heading, query)].  A bare [if] without [else] falls
    through to the next statement when none of its inner tests fires. *)
Definition headingWeight (heading query : jsstring) : float :=
  let h := heading in
  let authRule :=
    if includes query s_auth
       && (includes h (lit "OAuth") || includes h s_auth)
    then 1.25%float else 1.0%float in
  if includes query s_retry then
    if includes h s_retry then 1.35%float
    else if includes h s_backoff then 1.25%float
    else if includes h (lit "POST /v1/orders") then 1.05%float
    else authRule
  else authRule.

Definition score_chunk (qEmb : list float) (query : jsstring)
  (c : IndexedChunk) : Scored :=
  let score := cosineSim qEmb (embedding c) in
  let weighted :=
    (score * sourceWeight (source (meta c))
     * headingWeight (heading (meta c)) query)%float in
  {| chunk := c; score := score; weighted := weighted |}.

(** The ranking of the [/search] handler, lines 102-112, up to its
    [slice]: [index.chunks.map(...).sort(...).slice(0, topK)].  (The
    [/answer] handler and the REPL have the same chain, the REPL with the
    constant [5] for [topK].) *)
Definition scored (qEmb : list float) (chunks : list IndexedChunk)
  (query : jsstring) (topK : Z) : list Scored :=
  Array_slice0 topK
    (Array_sort by_weighted_desc (map (score_chunk qEmb query) chunks)).

End Server.

(** ** Effects of a tool handler *)

(** How the evaluation of a JavaScript expression ends: with a value, or
    with a thrown error (kept as its message, what the handlers read). *)
Inductive outcome (A : Type) : Type :=
| Returned (a : A)
| Thrown (message : jsstring).
Arguments Returned {A} a.
Arguments Thrown {A} message.

(** One request [openai.embeddings.create({ model, input })]. *)
Record ProviderCall : Type :=
  { call_model : jsstring; call_input : list jsstring }.

(** A handler's computation: it extends the trace of the provider calls made
    so far, and returns or throws. *)
Definition M (A : Type) : Type :=
  list ProviderCall -> outcome A * list ProviderCall.

Definition ret {A : Type} (a : A) : M A := fun tr => (Returned a, tr).

Definition throw {A : Type} (message : jsstring) : M A :=
  fun tr => (Thrown message, tr).

Definition bind {A B : Type} (m : M A) (k : A -> M B) : M B :=
  fun tr =>
    match m tr with
    | (Returned a, tr') => k a tr'
    | (Thrown e, tr') => (Thrown e, tr')
    end.

(** [try { m } catch (e) { h(e.message) }]. *)
Definition try_catch {A : Type} (m : M A) (h : jsstring -> M A) : M A :=
  fun tr =>
    match m tr with
    | (Returned a, tr') => (Returned a, tr')
    | (Thrown e, tr') => h e tr'
    end.

Notation "x <- m ;; k" := (bind m (fun x => k))
  (at level 61, m at next level, right associativity).

(** A handler run from an empty trace. *)
Definition run {A : Type} (m : M A) : outcome A * list ProviderCall := m [].

(** ** Tool results *)

(** An entry of [results]: [{ id, title, url }]. *)
Record ResultItem : Type :=
  { result_id : jsstring; result_title : jsstring; result_url : jsstring }.

(** The [metadata] of a fetched document: the chunk's [meta], or
    [{ error }]. *)
Inductive Metadata : Type :=
| MetaOfChunk (m : ChunkMeta)
| MetaError (error : jsstring).

(** The object a handler passes to [JSON.stringify] for [content[0].text]:
    [{ error, message }], [{ results }], or
    [{ id, title, text, url, metadata }]. *)
Inductive Payload : Type :=
| ErrorPayload (error message : jsstring)
| ResultsPayload (results : list ResultItem)
| DocumentPayload (doc_id title doc_text url : jsstring) (metadata : Metadata).

(** What a handler returns: [{ isError, content }]; a result without
    [isError] has it [false]. *)
Record ToolResult : Type := { isError : bool; content : Payload }.

(** The title of a chunk: [`${heading} (${source})`]. *)
Definition title_of (m : ChunkMeta) : jsstring :=
  heading m ++ lit " (" ++ source m ++ lit ")".

(** The not-found document of the fetch handlers. *)
Definition not_found_doc (base id : jsstring) : Payload :=
  DocumentPayload id (lit "NOT_FOUND") [] base (MetaError (lit "not_found")).

Section Handlers.
(** [DOC_BASE_URL], read from the environment at start. *)
Variable DOC_BASE_URL : jsstring.

(** The embedding provider: for a model and inputs, the embeddings of
    [resp.data], in order, or a failure. *)
Variable embeddings_create :
  jsstring -> list jsstring -> outcome (list (list float)).

(** The index loaded by [main]. *)
Variable index : IndexFile.

(** [await openai.embeddings.create({ model, input })]: the request is
    recorded, and the provider's answer is the outcome. *)
Definition call_provider (model : jsstring) (input : list jsstring)
  : M (list (list float)) :=
  fun tr =>
    (embeddings_create model input,
     tr ++ [{| call_model := model; call_input := input |}]).

(** [embedQuery(q, model)]: one provider call; [resp.data[0].embedding]
    throws a [TypeError] when [data] is empty. *)
Definition embedQuery (q model : jsstring) : M (list float) :=
  data <- call_provider model [q] ;;
  match data with
  | [] =>
      throw (lit "Cannot read properties of undefined (reading 'embedding')")
  | e :: _ => ret e
  end.

Definition canonicalUrlFor (m : ChunkMeta) : jsstring :=
  DOC_BASE_URL ++ source m.

(** [{ id: chunk.id, title: ..., url: canonicalUrlFor(chunk.meta) }]. *)
Definition result_of (s : Scored) : ResultItem :=
  {| result_id := id (chunk s);
     result_title := title_of (meta (chunk s));
     result_url := canonicalUrlFor (meta (chunk s)) |}.

(** The document of a hit. *)
Definition doc_of (hit : IndexedChunk) : Payload :=
  DocumentPayload (id hit) (title_of (meta hit)) (text hit)
    (canonicalUrlFor (meta hit)) (MetaOfChunk (meta hit)).

(** [index.chunks.find((c) => c.id === id)]. *)
Definition find_chunk (i : jsstring) : option IndexedChunk :=
  find (fun c => str_eqb (id c) i) (chunks index).

(** The [search] tool handler of [src/mcp_remote.ts], lines 148-204. *)
Definition search (args : JsValue) : M ToolResult :=
  try_catch
    (let a := normalizeSearchArgs args in
     let q := trim (query a) in
     if is_empty q then
       ret {| isError := true;
              content :=
                ErrorPayload (lit "invalid_query")
                  (lit "search arguments did not contain a valid query string") |}
     else
       qEmb <- embedQuery q (model index) ;;
       let scored := McpRemote.scored qEmb (chunks index) (topK a) in
       let results := map result_of scored in
       ret {| isError := false; content := ResultsPayload results |})
    (fun e =>
       ret {| isError := true;
              content := ErrorPayload (lit "search_failed") e |}).

(** The [fetch] tool handler of [src/mcp_remote.ts], lines 211-275. *)
Definition fetch (args : JsValue) : M ToolResult :=
  try_catch
    (let i := trim (normalizeFetchArgs args) in
     if is_empty i then
       ret {| isError := true;
              content :=
                ErrorPayload (lit "invalid_id")
                  (lit "fetch arguments did not contain a valid id string") |}
     else
       match find_chunk i with
       | None =>
           ret {| isError := true; content := not_found_doc DOC_BASE_URL i |}
       | Some hit => ret {| isError := false; content := doc_of hit |}
       end)
    (fun e =>
       ret {| isError := true;
              content := ErrorPayload (lit "fetch_failed") e |}).

(** The [fetch] tool handler of the earlier server ([src/unnamed/part_003],
    lines 114-149), whose schema [z.string().min(1)] hands it a non-empty
    string [id]: no normalisation, no [try], and a miss that carries no
    [isError]. *)
Definition fetch_by_string (i : jsstring) : M ToolResult :=
  match find_chunk i with
  | None => ret {| isError := false; content := not_found_doc DOC_BASE_URL i |}
  | Some hit => ret {| isError := false; content := doc_of hit |}
  end.

End Handlers.

(** ** Notions used to state the properties *)

(** The query text the specification locates in an unwrapped payload: the
    payload itself when it is a string, else a string-valued [query] field
    or, failing that, a string-valued [q] field. *)
Definition located_query (v : JsValue) : option jsstring :=
  match v with
  | JStr s => Some s
  | JObj fs =>
      match lookup (lit "query") fs with
      | Some (JStr s) => Some s
      | _ =>
          match lookup (lit "q") fs with
          | Some (JStr s) => Some s
          | _ => None
          end
      end
  | _ => None
  end.

(** The id the specification obtains from an unwrapped payload: the payload
    itself when it is a string, else a string-valued [id] field. *)
Definition located_id (v : JsValue) : option jsstring :=
  match v with
  | JStr s => Some s
  | JObj fs =>
      match lookup (lit "id") fs with
      | Some (JStr s) => Some s
      | _ => None
      end
  | _ => None
  end.

(** The [topK] the specification derives from an object's [topK] field. *)
Definition clamped_topK (field : option JsValue) : Z :=
  match field with
  | Some (JNum x) =>
      if is_finite x then Z.max 1 (Z.min 20 (Math_trunc x)) else 8%Z
  | _ => 8%Z
  end.

(** [a] occurs in [l] at an earlier position than [b]. *)
Definition ranks_before {A : Type} (a b : A) (l : list A) : Prop :=
  exists l1 l2 l3, l = l1 ++ a :: l2 ++ b :: l3.

(** Sorted by [weighted], descending: every entry's weighted score is at
    least that of every later entry. *)
Definition descending (l : list Scored) : Prop :=
  StronglySorted (fun a b => (weighted b <=? weighted a)%float = true) l.

(** No weighted score is [NaN]. *)
Definition no_nan_weighted (l : list Scored) : Prop :=
  Forall (fun s => is_nan (weighted s) = false) l.

(** The entries of [l] whose weighted score equals [v], in their order. *)
Definition with_weighted (v : float) (l : list Scored) : list Scored :=
  filter (fun s => (weighted s =? v)%float) l.

(** A binary64 value in [spec_float] form is [NaN]. *)
Definition SF_is_nan (x : spec_float) : bool :=
  match x with S754_nan => true | _ => false end.

(** A binary64 value in [spec_float] form is non-zero, not [NaN], and of
    sign [s]. *)
Definition signed_nonzero (s : bool) (x : spec_float) : Prop :=
  match x with
  | S754_finite s' _ _ => s' = s
  | S754_infinity s' => s' = s
  | _ => False
  end.

(** The zero vector of length [n]. *)
Definition zeroVector (n : nat) : list float := repeat 0%float n.

(** ** The other servers of [scripts/server.ts]

    The file holds two programs: the HTTP server (lines 1-203) and the
    stdio MCP server (lines 204-366).  Both answer with hit records that
    carry a preview of the chunk's text. *)

(** [text.replace(/\s+/g, " ")]: every maximal run of white space ([\s] is
    the set that [trim] strips) becomes one space.  [in_run] tells that the
    code unit before the current one was white space. *)
Fixpoint collapse_white_space (in_run : bool) (s : jsstring) : jsstring :=
  match s with
  | [] => []
  | c :: s' =>
      if is_white_space c then
        if in_run then collapse_white_space true s'
        else 0x20%N :: collapse_white_space true s'
      else c :: collapse_white_space false s'
  end.

(** [chunk.text.replace(/\s+/g, " ").slice(0, limit)]. *)
Definition preview (limit : nat) (text : jsstring) : jsstring :=
  firstn limit (collapse_white_space false text).

(** [{ id, score, weighted, source, heading, part, preview }]. *)
Record Hit : Type :=
  { hit_id : jsstring; hit_score : float; hit_weighted : float;
    hit_source : jsstring; hit_heading : jsstring; hit_part : float;
    hit_preview : jsstring }.

(** The HTTP server, as its handlers run once [zod] has accepted the
    request: [/search] receives a non-empty [query] and an integer [topK]
    in [1, 20], [/fetch] a non-empty [id]. *)
Module HttpServer.

(** The last [map] of the [/search] chain, lines 113-121. *)
Definition hit_of (s : Scored) : Hit :=
  {| hit_id := id (chunk s); hit_score := score s;
     hit_weighted := weighted s;
     hit_source := source (meta (chunk s));
     hit_heading := heading (meta (chunk s));
     hit_part := part (meta (chunk s));
     hit_preview := preview 240 (text (chunk s)) |}.

(** What a handler sends: a status code and a body. *)
Inductive Body : Type :=
| HitsBody (model : jsstring) (hits : list Hit)
| ChunkBody (chunk_id chunk_text chunk_source chunk_heading : jsstring)
    (chunk_part : float)
| NotFoundBody.

Record Reply : Type := { status : Z; body : Body }.

(** An entry of [citations]: [{ source, heading, part, id }]. *)
Record Citation : Type :=
  { cite_source : jsstring; cite_heading : jsstring; cite_part : float;
    cite_id : jsstring }.

(** [formatCitations(chunks)], lines 73-81. *)
Definition formatCitations (chunks : list IndexedChunk) : list Citation :=
  map (fun c =>
         {| cite_source := source (meta c); cite_heading := heading (meta c);
            cite_part := part (meta c); cite_id := id c |})
    chunks.

(** The retrieval step of [POST /answer], lines 154-166: the chain of
    [/search] on records [{ chunk, weighted }] (the comparator reads
    [weighted] only), followed by [.map((x) => x.chunk)]. *)
Definition top (qEmb : list float) (chunks : list IndexedChunk)
  (question : jsstring) (topK : Z) : list IndexedChunk :=
  map chunk (Server.scored qEmb chunks question topK).

Section HttpHandlers.
Variable embeddings_create :
  jsstring -> list jsstring -> outcome (list (list float)).
Variable index : IndexFile.

(** [POST /search], lines 93-124: no [try]; an error escapes to the
    framework. *)
Definition search (query : jsstring) (topK : Z) : M Reply :=
  qEmb <- embedQuery embeddings_create query (model index) ;;
  let hits := map hit_of (Server.scored qEmb (chunks index) query topK) in
  ret {| status := 200; body := HitsBody (model index) hits |}.

(** [GET /fetch], lines 127-141. *)
Definition fetch (i : jsstring) : M Reply :=
  match find_chunk index i with
  | None => ret {| status := 404; body := NotFoundBody |}
  | Some found =>
      ret {| status := 200;
             body :=
               ChunkBody (id found) (text found) (source (meta found))
                 (heading (meta found)) (part (meta found)) |}
  end.
End HttpHandlers.

End HttpServer.

(** The stdio MCP server, as its tools run once the input schema has
    accepted the arguments: [rag_search] receives a non-empty [query] and an
    optional integer [topK] in [1, 20], [rag_get_chunk] a non-empty [id].
    Its [sourceWeight] has the table of [src/mcp_remote.ts]. *)
Module StdioServer.

(** The callback of [index.chunks.map], lines 292-305. *)
Definition hit_of_chunk (qEmb : list float) (c : IndexedChunk) : Hit :=
  let score := cosineSim qEmb (embedding c) in
  let weighted := (score * McpRemote.sourceWeight (source (meta c)))%float in
  {| hit_id := id c; hit_score := score; hit_weighted := weighted;
     hit_source := source (meta c); hit_heading := heading (meta c);
     hit_part := part (meta c); hit_preview := preview 280 (text c) |}.

(** The comparator [(a, b) => b.weighted - a.weighted] on hit records. *)
Definition by_hit_weighted_desc (a b : Hit) : float :=
  (hit_weighted b - hit_weighted a)%float.

(** The text of [content[0]]: a plain string, or the object handed to
    [JSON.stringify]. *)
Inductive Content : Type :=
| PlainText (t : jsstring)
| HitsJson (model : jsstring) (hits : list Hit)
| ChunkJson (chunk_id chunk_source chunk_heading : jsstring)
    (chunk_part : float) (chunk_text : jsstring).

Section StdioTools.
(** [process.env.OPENAI_API_KEY]. *)
Variable OPENAI_API_KEY : option jsstring.
Variable embeddings_create :
  jsstring -> list jsstring -> outcome (list (list float)).
Variable index : IndexFile.

(** [embedQuery] of the stdio server, lines 254-260: it throws before any
    request when the key is unset or empty, and else does what the
    [embedQuery] above does. *)
Definition embedQuery (q model : jsstring) : M (list float) :=
  match OPENAI_API_KEY with
  | None | Some [] => throw (lit "OPENAI_API_KEY is not set.")
  | Some (_ :: _) => embedQuery embeddings_create q model
  end.

(** [rag_search], lines 286-317; [k = topK ?? 5]. *)
Definition rag_search (query : jsstring) (topK : option Z) : M Content :=
  let k := match topK with Some t => t | None => 5%Z end in
  qEmb <- embedQuery query (model index) ;;
  let scored :=
    Array_slice0 k
      (Array_sort by_hit_weighted_desc
         (map (hit_of_chunk qEmb) (chunks index))) in
  ret (HitsJson (model index) scored).

(** [rag_get_chunk], lines 328-353. *)
Definition rag_get_chunk (i : jsstring) : M Content :=
  match find_chunk index i with
  | None => ret (PlainText (lit "NOT_FOUND: " ++ i))
  | Some hit =>
      ret (ChunkJson (id hit) (source (meta hit)) (heading (meta hit))
             (part (meta hit)) (text hit))
  end.
End StdioTools.

End StdioServer.

(** ** Further notions used to state properties *)

(** Every code unit of [s] is white space. *)
Definition all_white_space (s : jsstring) : Prop :=
  Forall (fun c => is_white_space c = true) s.

(** A binary64 value that is finite and not zero. *)
Definition finite_nonzero (w : float) : Prop :=
  exists s m e, Prim2SF w = S754_finite s m e.

(** The ids of an index can be fetched back: each is non-empty, has no
    white space at either end, and belongs to one chunk only. *)
Definition fetchable_ids (index : IndexFile) : Prop :=
  NoDup (map id (chunks index))
  /\ Forall (fun c => id c <> [] /\ trim (id c) = id c) (chunks index).



(** The real number [m * 2 ^ e]: the value of a finite binary64 number of
    significand [m] and exponent [e]. *)
Definition F2R (m e : Z) : R := (IZR m * powerRZ 2 e)%R.

(** [2 ^ -52]: the distance, relative to a normal binary64 number, to its
    neighbours. *)
Definition eta52 : R := (/ 4503599627370496)%R.

(** ** Sample data *)

Definition sample_base : jsstring :=
  lit "https://github.com/Kou0402/rag-mcp-poc/blob/develop/".

Definition sample_model : jsstring := lit "text-embedding-3-small".

Definition sample_chunk (i src h : jsstring) (emb : list float)
  : IndexedChunk :=
  {| id := i; text := lit "body";
     meta := {| source := src; heading := h; part := 0%float |};
     embedding := emb |}.

(** A provider that answers every request with the one embedding [e]. *)
Definition provider_returning (e : list float)
  : jsstring -> list jsstring -> outcome (list (list float)) :=
  fun _ _ => Returned [e].

(** An API chunk and a FAQ chunk with the same embedding [emb]. *)
Definition chunk_api (emb : list float) : IndexedChunk :=
  sample_chunk (lit "docs/api.md#auth#0") (lit "docs/api.md")
    (lit "Authentication") emb.

Definition chunk_faq (emb : list float) : IndexedChunk :=
  sample_chunk (lit "docs/faq.md#auth#0") (lit "docs/faq.md")
    (lit "Authentication") emb.

Definition index_api_faq (emb : list float) : IndexFile :=
  {| model := sample_model; chunks := [chunk_api emb; chunk_faq emb] |}.

(** Two chunks of an unweighted source; the first is under a heading that
    contains the retry keyword. *)
Definition chunk_retry : IndexedChunk :=
  sample_chunk (lit "docs/guide.md#retry#0") (lit "docs/guide.md")
    Server.s_retry [3; 4]%float.

Definition chunk_plain : IndexedChunk :=
  sample_chunk (lit "docs/guide.md#intro#0") (lit "docs/guide.md")
    (lit "Introduction") [4; 3]%float.

(** A chunk whose embedding is longer than a query vector of length 2, a
    chunk whose embedding is shorter, and an index that holds the latter
    between two chunks of length 2. *)
Definition chunk_long : IndexedChunk :=
  sample_chunk (lit "docs/guide.md#long#0") (lit "docs/guide.md")
    (lit "Long") [1; 0; 5]%float.

Definition chunk_short : IndexedChunk :=
  sample_chunk (lit "docs/guide.md#short#0") (lit "docs/guide.md")
    (lit "Short") [1]%float.

Definition index_mixed_lengths : IndexFile :=
  {| model := sample_model;
     chunks := [chunk_plain; chunk_short; chunk_api [1; 0]%float] |}.

(** * Facts *)

(** ** Binary64 arithmetic

    The kernel's operations are specified by [FloatAxioms] through
    [Prim2SF]; the facts below are derived from those specifications. *)

Section Binary64.
Local Open Scope Z_scope.

Lemma SF64mul_comm x y : SF64mul x y = SF64mul y x.
Proof.
  unfold SF64mul, SFmul.
  destruct x as [sx|sx| |sx mx ex], y as [sy|sy| |sy my ey];
    try reflexivity; rewrite (xorb_comm sx sy); try reflexivity.
  now rewrite (Pos.mul_comm mx my), (Z.add_comm ex ey).
Qed.

Lemma float_mul_comm (x y : float) : (x * y)%float = (y * x)%float.
Proof. apply Prim2SF_inj. rewrite !mul_spec. apply SF64mul_comm. Qed.

Lemma float_mul_nan_r x : (x * nan)%float = nan.
Proof.
  apply Prim2SF_inj. rewrite mul_spec.
  change (Prim2SF nan) with S754_nan.
  unfold SF64mul, SFmul. now destruct (Prim2SF x).
Qed.

Lemma float_add_nan_r x : (x + nan)%float = nan.
Proof.
  apply Prim2SF_inj. rewrite add_spec.
  change (Prim2SF nan) with S754_nan.
  unfold SF64add, SFadd. now destruct (Prim2SF x).
Qed.

Lemma float_add_nan_l x : (nan + x)%float = nan.
Proof.
  apply Prim2SF_inj. rewrite add_spec.
  change (Prim2SF nan) with S754_nan.
  unfold SF64add, SFadd. now destruct (Prim2SF x).
Qed.

Lemma float_div_nan_l x : (nan / x)%float = nan.
Proof.
  apply Prim2SF_inj. rewrite div_spec.
  change (Prim2SF nan) with S754_nan. reflexivity.
Qed.

(** *** The order on [spec_float] *)

Ltac sf_cases :=
  repeat match goal with s : bool |- _ => destruct s end; cbn;
  try reflexivity; try discriminate;
  change (Pos.compare_cont Eq) with Pos.compare;
  repeat match goal with
    | |- context [Z.compare ?a ?b] => destruct (Z.compare_spec a b)
    | |- context [Pos.compare ?a ?b] => destruct (Pos.compare_spec a b)
    end; cbn; try reflexivity; try discriminate; try lia.

Lemma SFcompare_refl x : SF_is_nan x = false -> SFcompare x x = Some Eq.
Proof.
  destruct x as [s|s| |s m e]; try discriminate; intros _; cbn.
  - reflexivity.
  - now destruct s.
  - rewrite Z.compare_refl.
    change (Pos.compare_cont Eq m m) with (Pos.compare m m).
    rewrite Pos.compare_refl. now destruct s.
Qed.

Lemma SFltb_asym x y : SFltb x y = true -> SFltb y x = false.
Proof.
  unfold SFltb.
  destruct x as [sx|sx| |sx mx ex], y as [sy|sy| |sy my ey];
    try reflexivity; try discriminate; sf_cases.
Qed.

Lemma SFltb_negtrans x y z :
  SF_is_nan y = false ->
  SFltb x y = false -> SFltb y z = false -> SFltb x z = false.
Proof.
  unfold SFltb.
  destruct x as [sx|sx| |sx mx ex], y as [sy|sy| |sy my ey],
           z as [sz|sz| |sz mz ez];
    try reflexivity; try discriminate; intros _; sf_cases.
Qed.

Lemma SFleb_of_not_ltb x y :
  SF_is_nan x = false -> SF_is_nan y = false ->
  SFltb x y = false -> SFleb y x = true.
Proof.
  unfold SFltb, SFleb.
  destruct x as [sx|sx| |sx mx ex], y as [sy|sy| |sy my ey];
    try reflexivity; try discriminate; intros _ _; sf_cases.
Qed.

Lemma SFltb_of_leb x y : SFleb y x = true -> SFltb x y = false.
Proof.
  unfold SFltb, SFleb.
  destruct x as [sx|sx| |sx mx ex], y as [sy|sy| |sy my ey];
    try reflexivity; try discriminate; sf_cases.
Qed.

Lemma SFeqb_ltb x y k :
  SFeqb x k = true -> SFeqb y k = true -> SFltb x y = false.
Proof.
  unfold SFltb, SFeqb.
  destruct x as [sx|sx| |sx mx ex], y as [sy|sy| |sy my ey],
           k as [sk|sk| |sk mk ek];
    try reflexivity; try discriminate; sf_cases.
Qed.

Lemma SFeqb_of_not_ltb x y :
  SF_is_nan x = false -> SF_is_nan y = false ->
  SFltb x y = false -> SFltb y x = false -> SFeqb x y = true.
Proof.
  unfold SFltb, SFeqb.
  destruct x as [sx|sx| |sx mx ex], y as [sy|sy| |sy my ey];
    try reflexivity; try discriminate; intros _ _; sf_cases.
Qed.

(** *** The same facts on [float] *)

Lemma is_nan_spec f : is_nan f = SF_is_nan (Prim2SF f).
Proof.
  unfold is_nan. rewrite eqb_spec. unfold SFeqb.
  destruct (SF_is_nan (Prim2SF f)) eqn:E.
  - destruct (Prim2SF f); try discriminate. reflexivity.
  - now rewrite SFcompare_refl.
Qed.

Lemma float_eqb_refl x : is_nan x = false -> (x =? x)%float = true.
Proof. unfold is_nan. now destruct (x =? x)%float. Qed.

Lemma float_ltb_asym x y :
  (x <? y)%float = true -> (y <? x)%float = false.
Proof. rewrite !ltb_spec. apply SFltb_asym. Qed.

Lemma float_ltb_negtrans x y z :
  is_nan y = false ->
  (x <? y)%float = false -> (y <? z)%float = false ->
  (x <? z)%float = false.
Proof. rewrite is_nan_spec, !ltb_spec. apply SFltb_negtrans. Qed.

Lemma float_leb_of_not_ltb x y :
  is_nan x = false -> is_nan y = false ->
  (x <? y)%float = false -> (y <=? x)%float = true.
Proof. rewrite !is_nan_spec, ltb_spec, leb_spec. apply SFleb_of_not_ltb. Qed.

Lemma float_ltb_of_leb x y :
  (y <=? x)%float = true -> (x <? y)%float = false.
Proof. rewrite ltb_spec, leb_spec. apply SFltb_of_leb. Qed.

Lemma float_eqb_ltb x y k :
  (x =? k)%float = true -> (y =? k)%float = true ->
  (x <? y)%float = false.
Proof. rewrite !eqb_spec, ltb_spec. apply SFeqb_ltb. Qed.

Lemma float_eqb_of_not_ltb x y :
  is_nan x = false -> is_nan y = false ->
  (x <? y)%float = false -> (y <? x)%float = false ->
  (x =? y)%float = true.
Proof.
  rewrite !is_nan_spec, !ltb_spec, eqb_spec. apply SFeqb_of_not_ltb.
Qed.

(** *** The sign of a difference

    [b - a] is positive exactly when [a < b]: the operands are aligned on
    the smaller exponent, their exact difference is rounded, and rounding
    a non-zero value at an exponent not below [emin] keeps it non-zero
    with its sign. *)

Lemma digits2_pos_bounds m :
  2 ^ (Zpos (digits2_pos m) - 1) <= Zpos m < 2 ^ Zpos (digits2_pos m).
Proof.
  induction m as [m IH|m IH|]; cbn [digits2_pos].
  - rewrite Pos2Z.inj_succ.
    replace (Z.succ (Zpos (digits2_pos m)) - 1) with (Z.succ (Zpos (digits2_pos m) - 1)) by lia.
    rewrite !Z.pow_succ_r by lia.
    revert IH. generalize (2 ^ (Zpos (digits2_pos m) - 1)) (2 ^ Zpos (digits2_pos m)). intros a b IH. lia.
  - rewrite Pos2Z.inj_succ.
    replace (Z.succ (Zpos (digits2_pos m)) - 1) with (Z.succ (Zpos (digits2_pos m) - 1)) by lia.
    rewrite !Z.pow_succ_r by lia.
    revert IH. generalize (2 ^ (Zpos (digits2_pos m) - 1)) (2 ^ Zpos (digits2_pos m)). intros a b IH. lia.
  - cbn. lia.
Qed.

Lemma pos_iter_xO m d : Zpos (Pos.iter xO m d) = Zpos m * 2 ^ Zpos d.
Proof.
  induction d as [|d IH] using Pos.peano_ind.
  - cbn. lia.
  - rewrite Pos.iter_succ, Pos2Z.inj_succ, Z.pow_succ_r by lia.
    change (Zpos (Pos.iter xO m d)~0) with (2 * Zpos (Pos.iter xO m d)). rewrite IH. lia.
Qed.

Lemma shl_align_value mx ex ez :
  ez <= ex -> Zpos (fst (shl_align mx ex ez)) = Zpos mx * 2 ^ (ex - ez).
Proof.
  intros H. unfold shl_align.
  destruct (ez - ex) as [|d|d] eqn:E; cbn [fst].
  - replace (ex - ez) with 0 by lia. cbn. lia.
  - lia.
  - rewrite pos_iter_xO. f_equal. f_equal. lia.
Qed.

Lemma shl_align_exp mx ex ez :
  snd (shl_align mx ex ez) = Z.min ex ez.
Proof.
  unfold shl_align. destruct (ez - ex) as [|d|d] eqn:E; cbn [snd]; lia.
Qed.

(* shifting right *)
Lemma shr_1_m mrs : 0 <= shr_m mrs -> shr_m (shr_1 mrs) = shr_m mrs / 2.
Proof.
  destruct mrs as [m r s]. cbn [shr_m]. intros H.
  rewrite <- Z.div2_div.
  destruct m as [|[p|p|]|p]; try reflexivity. lia.
Qed.

Lemma iter_shr_1_m p : forall mrs, 0 <= shr_m mrs ->
  shr_m (iter_pos shr_1 p mrs) = shr_m mrs / 2 ^ Zpos p.
Proof.
  induction p as [p IH|p IH|]; intros mrs H; cbn [iter_pos].
  - assert (H1 : 0 <= shr_m (shr_1 mrs)) by (rewrite shr_1_m by lia; apply Z.div_pos; lia).
    assert (H2 : 0 <= shr_m (iter_pos shr_1 p (shr_1 mrs))) by (rewrite IH by lia; apply Z.div_pos; lia).
    rewrite IH, IH, shr_1_m by lia.
    rewrite !Z.div_div by lia.
    f_equal.
    replace (Zpos p~1) with (1 + Zpos p + Zpos p) by lia.
    rewrite !Z.pow_add_r by lia. lia.
  - assert (H2 : 0 <= shr_m (iter_pos shr_1 p mrs)) by (rewrite IH by lia; apply Z.div_pos; lia).
    rewrite IH, IH by lia.
    rewrite !Z.div_div by lia.
    f_equal.
    replace (Zpos p~0) with (Zpos p + Zpos p) by lia.
    rewrite !Z.pow_add_r by lia. lia.
  - rewrite shr_1_m by lia. reflexivity.
Qed.

Lemma shr_record_of_loc_m m l : shr_m (shr_record_of_loc m l) = m.
Proof. destruct l as [|[]]; reflexivity. Qed.

Lemma shr_fexp_pos p e l :
  emin <= e ->
  0 < shr_m (fst (shr_fexp prec emax (Zpos p) e l))
  /\ emin <= snd (shr_fexp prec emax (Zpos p) e l).
Proof.
  intros He. unfold shr_fexp, shr.
  pose proof (digits2_pos_bounds p) as [Hlo _].
  cbn [Zdigits2].
  set (d := Zpos (digits2_pos p)) in *.
  destruct (fexp prec emax (d + e) - e) as [|n|n] eqn:En; cbn [fst snd].
  - rewrite shr_record_of_loc_m. split; lia.
  - rewrite iter_shr_1_m by (rewrite shr_record_of_loc_m; lia).
    rewrite shr_record_of_loc_m.
    unfold fexp, SpecFloat.emin, prec, emax in *.
    split; [|lia].
    apply Z.div_str_pos. split; [apply Z.pow_pos_nonneg; lia|].
    etransitivity; [|exact Hlo].
    apply Z.pow_le_mono_r; lia.
  - rewrite shr_record_of_loc_m. split; lia.
Qed.

Lemma round_nearest_even_pos m l : 0 < m -> 0 < round_nearest_even m l.
Proof.
  intros H. unfold round_nearest_even.
  destruct l as [|[]]; try lia. destruct (Z.even m); lia.
Qed.

Lemma binary_round_aux_sign s p e l :
  emin <= e -> signed_nonzero s (binary_round_aux prec emax s (Zpos p) e l).
Proof.
  intros He. unfold binary_round_aux.
  destruct (shr_fexp_pos p e l He) as [H1 H2].
  destruct (shr_fexp prec emax (Zpos p) e l) as [mrs' e'] eqn:E1. cbn [fst snd] in *.
  pose proof (round_nearest_even_pos (shr_m mrs') (loc_of_shr_record mrs') H1) as H3.
  destruct (round_nearest_even (shr_m mrs') (loc_of_shr_record mrs')) as [|q|q] eqn:E2; try lia.
  destruct (shr_fexp_pos q e' loc_Exact H2) as [H4 H5].
  destruct (shr_fexp prec emax (Zpos q) e' loc_Exact) as [mrs'' e''] eqn:E3. cbn [fst snd] in *.
  destruct (shr_m mrs'') as [|r|r]; try lia.
  destruct (e'' <=? emax - prec); reflexivity.
Qed.

Lemma binary_round_sign s m e :
  emin <= e -> signed_nonzero s (binary_round prec emax s m e).
Proof.
  intros He. unfold binary_round.
  pose proof (shl_align_exp m e (fexp prec emax (Zpos (digits2_pos m) + e))) as Hs.
  destruct (shl_align m e (fexp prec emax (Zpos (digits2_pos m) + e))) as [mz ez].
  cbn [snd] in Hs. apply binary_round_aux_sign.
  unfold fexp, SpecFloat.emin, prec, emax in *. lia.
Qed.

Lemma bounded_canonical m e :
  bounded prec emax m e = true ->
  Z.max (Zpos (digits2_pos m) + e - 53) (-1074) = e.
Proof.
  unfold bounded, canonical_mantissa, fexp, SpecFloat.emin, prec, emax.
  intros H. apply andb_true_iff in H. destruct H as [H _].
  apply Z.eqb_eq in H. exact H.
Qed.

Lemma canonical_lt mA eA mB eB :
  bounded prec emax mA eA = true -> bounded prec emax mB eB = true ->
  eA < eB -> Zpos mA < Zpos mB * 2 ^ (eB - eA).
Proof.
  intros HA HB Hlt.
  apply bounded_canonical in HA. apply bounded_canonical in HB.
  pose proof (digits2_pos_bounds mA) as [_ HA2].
  pose proof (digits2_pos_bounds mB) as [HB1 _].
  assert (HdB : Zpos (digits2_pos mB) = 53) by lia.
  assert (HdA : Zpos (digits2_pos mA) <= 53) by lia.
  rewrite HdB in HB1.
  assert (H1 : 2 ^ Zpos (digits2_pos mA) <= 2 ^ 53) by (apply Z.pow_le_mono_r; lia).
  assert (H2 : 2 ^ 1 <= 2 ^ (eB - eA)) by (apply Z.pow_le_mono_r; lia).
  change (2 ^ 1) with 2 in H2.
  change (2 ^ (53 - 1)) with 4503599627370496 in HB1.
  change (2 ^ 53) with 9007199254740992 in H1.
  nia.
Qed.

Lemma SFcompare_finite sA mA eA sB mB eB :
  bounded prec emax mA eA = true -> bounded prec emax mB eB = true ->
  SFcompare (S754_finite sA mA eA) (S754_finite sB mB eB)
  = Some (Z.compare
            (cond_Zopp sA (Zpos (fst (shl_align mA eA (Z.min eA eB)))))
            (cond_Zopp sB (Zpos (fst (shl_align mB eB (Z.min eA eB)))))).
Proof.
  intros HA HB.
  rewrite !shl_align_value by lia.
  cbn [SFcompare]. f_equal.
  change (Pos.compare_cont Eq mA mB) with (Pos.compare mA mB).
  destruct (Z.compare_spec eA eB) as [E|E|E].
  - subst eB. rewrite Z.min_id, Z.sub_diag. change (2 ^ 0) with 1. rewrite !Z.mul_1_r.
    destruct sA, sB; reflexivity.
  - pose proof (canonical_lt _ _ _ _ HA HB E) as Hlt.
    rewrite Z.min_l by lia. rewrite Z.sub_diag. change (2 ^ 0) with 1. rewrite Z.mul_1_r.
    assert (0 < Zpos mB * 2 ^ (eB - eA)) by lia.
    destruct sA, sB; cbn [cond_Zopp]; symmetry.
    + apply Z.compare_gt_iff. lia.
    + apply Z.compare_lt_iff. lia.
    + apply Z.compare_gt_iff. lia.
    + apply Z.compare_lt_iff. lia.
  - pose proof (canonical_lt _ _ _ _ HB HA E) as Hlt.
    rewrite Z.min_r by lia. rewrite Z.sub_diag. change (2 ^ 0) with 1. rewrite Z.mul_1_r.
    assert (0 < Zpos mA * 2 ^ (eA - eB)) by lia.
    destruct sA, sB; cbn [cond_Zopp]; symmetry.
    + apply Z.compare_lt_iff. lia.
    + apply Z.compare_lt_iff. lia.
    + apply Z.compare_gt_iff. lia.
    + apply Z.compare_gt_iff. lia.
Qed.

Lemma SFltb_zero_signed s x :
  signed_nonzero s x -> SFltb (S754_zero false) x = negb s.
Proof.
  destruct x as [| s' | | s' m e]; cbn; try contradiction; intros ->; now destruct s.
Qed.

Lemma SF64sub_pos A B :
  valid_binary A = true -> valid_binary B = true ->
  SFltb (S754_zero false) (SF64sub B A) = SFltb A B.
Proof.
  intros HA HB.
  destruct A as [sA|sA| |sA mA eA], B as [sB|sB| |sB mB eB];
    try reflexivity;
    try (destruct sA, sB; reflexivity);
    try (destruct sA; reflexivity);
    try (destruct sB; reflexivity).
  cbn [valid_binary] in HA, HB.
  unfold SFltb at 2. rewrite (SFcompare_finite _ _ _ _ _ _ HA HB).
  unfold SF64sub, SFsub.
  rewrite (Z.min_comm eB eA).
  set (XA := cond_Zopp sA (Zpos (fst (shl_align mA eA (Z.min eA eB))))).
  set (XB := cond_Zopp sB (Zpos (fst (shl_align mB eB (Z.min eA eB))))).
  assert (Hmin : emin <= Z.min eA eB).
  { apply bounded_canonical in HA. apply bounded_canonical in HB.
    unfold SpecFloat.emin, prec, emax. lia. }
  unfold binary_normalize.
  destruct (XB - XA) as [|p|p] eqn:E.
  - assert (H : XA = XB) by lia. apply Z.compare_eq_iff in H. now rewrite H.
  - rewrite (SFltb_zero_signed false) by (apply binary_round_sign; exact Hmin).
    assert (H : XA < XB) by lia. apply Z.compare_lt_iff in H. now rewrite H.
  - rewrite (SFltb_zero_signed true) by (apply binary_round_sign; exact Hmin).
    assert (H : XB < XA) by lia. apply Z.compare_gt_iff in H. now rewrite H.
Qed.

Lemma float_sub_pos (a b : float) : (0 <? b - a)%float = (a <? b)%float.
Proof.
  rewrite !ltb_spec, sub_spec.
  change (Prim2SF 0) with (S754_zero false).
  apply SF64sub_pos; apply Prim2SF_valid.
Qed.

End Binary64.

(** ** Strings and payloads *)

Lemma str_eqb_eq a b : str_eqb a b = true <-> a = b.
Proof.
  revert b. induction a as [|x a IH]; intros [|y b]; cbn; split;
    try reflexivity; try discriminate.
  - intros H. apply andb_true_iff in H. destruct H as [H1 H2].
    apply N.eqb_eq in H1. apply IH in H2. now subst.
  - intros H. injection H as -> ->. rewrite N.eqb_refl. now apply IH.
Qed.

(** ** Envelopes *)

Lemma unwrap_JObj fs :
  unwrap (JObj fs)
  = match lookup (lit "arguments") fs with
    | Some x => unwrap x
    | None =>
        match lookup (lit "input") fs with
        | Some x => unwrap x
        | None => JObj fs
        end
    end.
Proof.
  assert (H : forall k l,
    (fix unwrap_property (k : jsstring) (l : list (jsstring * JsValue))
       : option JsValue :=
       match l with
       | [] => None
       | (k', x) :: l' =>
           if str_eqb k' k then Some (unwrap x) else unwrap_property k l'
       end) k l = option_map unwrap (lookup k l)).
  { intros k l. induction l as [|[k' x] l IH]; [reflexivity|].
    cbn [lookup]. destruct (str_eqb k' k); [reflexivity|exact IH]. }
  cbn [unwrap]. rewrite !H.
  destruct (lookup (lit "arguments") fs); [reflexivity|].
  destruct (lookup (lit "input") fs); reflexivity.
Qed.

Lemma unwrap_spec v :
  unwrap v
  = if has_property (lit "arguments") v
    then unwrap (get_property (lit "arguments") v)
    else if has_property (lit "input") v
         then unwrap (get_property (lit "input") v)
         else v.
Proof.
  destruct v as [| | b | x | s | items | fs]; try reflexivity.
  rewrite unwrap_JObj. unfold has_property, get_property.
  destruct (lookup (lit "arguments") fs); [reflexivity|].
  destruct (lookup (lit "input") fs); reflexivity.
Qed.

Section JsValue_induction.
Variable P : JsValue -> Prop.
Hypothesis HUndefined : P JUndefined.
Hypothesis HNull : P JNull.
Hypothesis HBool : forall b, P (JBool b).
Hypothesis HNum : forall x, P (JNum x).
Hypothesis HStr : forall s, P (JStr s).
Hypothesis HArr : forall items, Forall P items -> P (JArr items).
Hypothesis HObj : forall fs, Forall (fun kv => P (snd kv)) fs -> P (JObj fs).

(** Induction on a value, with the property available for every item of an
    array and every property value of an object. *)
Fixpoint JsValue_nested_ind (v : JsValue) : P v :=
  match v with
  | JUndefined => HUndefined
  | JNull => HNull
  | JBool b => HBool b
  | JNum x => HNum x
  | JStr s => HStr s
  | JArr items =>
      HArr items
        ((fix all (l : list JsValue) : Forall P l :=
            match l with
            | [] => Forall_nil P
            | x :: l' => Forall_cons x (JsValue_nested_ind x) (all l')
            end) items)
  | JObj fs =>
      HObj fs
        ((fix all (l : list (jsstring * JsValue))
            : Forall (fun kv => P (snd kv)) l :=
            match l with
            | [] => Forall_nil _
            | (k, x) :: l' =>
                Forall_cons (k, x) (JsValue_nested_ind x) (all l')
            end) fs)
  end.
End JsValue_induction.

Lemma lookup_Forall (P : JsValue -> Prop) k fs x :
  Forall (fun kv => P (snd kv)) fs -> lookup k fs = Some x -> P x.
Proof.
  induction 1 as [|[k' y] l Hy _ IH]; cbn [lookup]; [discriminate|].
  destruct (str_eqb k' k); [|exact IH].
  intros H. injection H as <-. exact Hy.
Qed.

(** Unwrapping stops only at a value that is no envelope. *)
Lemma unwrap_stops v :
  has_property (lit "arguments") (unwrap v) = false
  /\ has_property (lit "input") (unwrap v) = false.
Proof.
  induction v as [| | b | x | s | items _ | fs IH] using JsValue_nested_ind;
    try (split; reflexivity).
  rewrite unwrap_JObj.
  destruct (lookup (lit "arguments") fs) as [x|] eqn:Ea.
  - exact (lookup_Forall (fun v => _ (unwrap v) = false /\ _ (unwrap v) = false) _ _ _ IH Ea).
  - destruct (lookup (lit "input") fs) as [x|] eqn:Ei.
    + exact (lookup_Forall (fun v => _ (unwrap v) = false /\ _ (unwrap v) = false) _ _ _ IH Ei).
    + unfold has_property. now rewrite Ea, Ei.
Qed.

(** ** The dot product *)

Lemma number_at_cons y b i : number_at (y :: b) (S i) = number_at b i.
Proof. reflexivity. Qed.

(** The loop entered past the head of [b] is the loop on the tail of [b]. *)
Lemma dot_loop_shift rest : forall s i y b,
  dot_loop s (S i) rest (y :: b) = dot_loop s i rest b.
Proof.
  induction rest as [|x rest IH]; intros s i y b; cbn [dot_loop];
    [reflexivity|].
  now rewrite number_at_cons, IH.
Qed.

Lemma dot_loop_cons s x a y b :
  dot_loop s 0 (x :: a) (y :: b) = dot_loop (s + x * y)%float 0 a b.
Proof. cbn [dot_loop]. now rewrite dot_loop_shift. Qed.

Lemma dot_loop_nan rest : forall i b, dot_loop nan i rest b = nan.
Proof.
  induction rest as [|x rest IH]; intros i b; cbn [dot_loop];
    [reflexivity|].
  now rewrite float_add_nan_l, IH.
Qed.

Lemma dot_loop_short a : forall s b,
  (List.length b < List.length a)%nat -> dot_loop s 0 a b = nan.
Proof.
  induction a as [|x a IH]; intros s b H; [cbn in H; lia|].
  destruct b as [|y b].
  - cbn [dot_loop]. change (number_at [] 0) with nan.
    now rewrite float_mul_nan_r, float_add_nan_r, dot_loop_nan.
  - rewrite dot_loop_cons. apply IH. cbn in H. lia.
Qed.

Lemma dot_loop_firstn a : forall s b,
  dot_loop s 0 a b = dot_loop s 0 a (firstn (List.length a) b).
Proof.
  induction a as [|x a IH]; intros s b; [reflexivity|].
  destruct b as [|y b]; [reflexivity|].
  cbn [List.length firstn]. rewrite !dot_loop_cons. apply IH.
Qed.

Lemma dot_loop_comm a : forall s b,
  List.length a = List.length b -> dot_loop s 0 a b = dot_loop s 0 b a.
Proof.
  induction a as [|x a IH]; intros s [|y b] H; try reflexivity;
    try discriminate.
  rewrite !dot_loop_cons, (float_mul_comm y x). apply IH.
  now injection H.
Qed.

Lemma dot_comm a b : List.length a = List.length b -> dot a b = dot b a.
Proof. apply dot_loop_comm. Qed.

Lemma dot_zeroVector n : dot (zeroVector n) (zeroVector n) = 0%float.
Proof.
  unfold dot, zeroVector. induction n as [|n IH]; [reflexivity|].
  cbn [repeat]. rewrite dot_loop_cons. exact IH.
Qed.

Lemma norm_zeroVector n : norm (zeroVector n) = 0%float.
Proof. unfold norm. now rewrite dot_zeroVector. Qed.

Lemma cosineSim_zero_norm a b :
  (norm a =? 0)%float = true \/ (norm b =? 0)%float = true ->
  cosineSim a b = 0%float.
Proof.
  intros H. unfold cosineSim.
  destruct H as [-> | ->]; [reflexivity|].
  now rewrite orb_true_r.
Qed.

(** ** Sorting and slicing *)

Section SortFacts.
Context {A : Type}.
Variable comparefn : A -> A -> float.

Local Abbreviation after := (sorts_after comparefn).

Lemma insert_perm x l : Permutation (x :: l) (insert comparefn x l).
Proof.
  induction l as [|y l IH]; cbn [insert]; [reflexivity|].
  destruct (after x y); [|reflexivity].
  rewrite perm_swap. now apply perm_skip.
Qed.

Lemma sort_perm l : Permutation l (Array_sort comparefn l).
Proof.
  induction l as [|x l IH]; [reflexivity|].
  cbn [Array_sort fold_right]. rewrite <- insert_perm. now apply perm_skip.
Qed.

Lemma sort_length l : List.length (Array_sort comparefn l) = List.length l.
Proof. symmetry. apply Permutation_length, sort_perm. Qed.

(** *** Order: for a comparator that is consistent on the entries *)

Variable ok : A -> Prop.
Hypothesis after_asym : forall x y, after x y = true -> after y x = false.
Hypothesis after_negtrans : forall x y z,
  ok y -> after x y = false -> after y z = false -> after x z = false.

(** [x] may stand before [y]. *)
Local Abbreviation in_order := (fun x y => after x y = false).

Lemma insert_sorted x l :
  Forall ok l -> StronglySorted in_order l ->
  StronglySorted in_order (insert comparefn x l).
Proof.
  intros Hok Hs. induction Hs as [|y l Hs IH Hy]; cbn [insert].
  - repeat constructor.
  - inversion Hok as [|? ? Hoky Hokl]; subst.
    destruct (after x y) eqn:E.
    + constructor; [now apply IH|].
      apply (Permutation_Forall (insert_perm x l)).
      constructor; [now apply after_asym | exact Hy].
    + constructor; [now constructor|].
      constructor; [exact E|].
      revert Hy. apply Forall_impl. intros z Hz.
      now apply (after_negtrans x y z).
Qed.

Lemma sort_sorted l : Forall ok l -> StronglySorted in_order (Array_sort comparefn l).
Proof.
  induction 1 as [|x l Hx Hl IH]; cbn [Array_sort fold_right];
    [constructor|].
  apply insert_sorted; [|exact IH].
  exact (Permutation_Forall (sort_perm l) Hl).
Qed.

(** *** Stability: entries that the comparator never orders keep their
    places relative to one another *)

Variable p : A -> bool.
Hypothesis p_unordered : forall x y,
  p x = true -> p y = true -> after x y = false.

Lemma filter_insert x l :
  filter p (insert comparefn x l) = filter p (x :: l).
Proof.
  induction l as [|y l IH]; cbn [insert]; [reflexivity|].
  destruct (after x y) eqn:E; [|reflexivity].
  cbn [filter] in *. rewrite IH.
  destruct (p x) eqn:Ex; [|reflexivity].
  destruct (p y) eqn:Ey; [|reflexivity].
  rewrite (p_unordered x y Ex Ey) in E. discriminate.
Qed.

Lemma filter_sort l : filter p (Array_sort comparefn l) = filter p l.
Proof.
  unfold Array_sort. induction l as [|x l IH]; [reflexivity|].
  cbn [fold_right]. rewrite filter_insert. cbn [filter].
  now rewrite IH.
Qed.

End SortFacts.

Section SliceFacts.
Context {A : Type}.

Lemma Array_slice0_firstn (k : Z) (l : list A) :
  (0 <= k)%Z -> Array_slice0 k l = firstn (Z.to_nat k) l.
Proof.
  intros H. unfold Array_slice0.
  destruct (k <? 0)%Z eqn:E; [|reflexivity].
  apply Z.ltb_lt in E. lia.
Qed.

Lemma Array_slice0_length (k : Z) (l : list A) :
  (0 <= k)%Z ->
  List.length (Array_slice0 k l) = Nat.min (Z.to_nat k) (List.length l).
Proof.
  intros H. rewrite Array_slice0_firstn by exact H. apply length_firstn.
Qed.


Lemma StronglySorted_firstn (R : A -> A -> Prop) n : forall l,
  StronglySorted R l -> StronglySorted R (firstn n l).
Proof.
  induction n as [|n IH]; intros l Hs; [constructor|].
  destruct Hs as [|x l Hs Hx]; cbn [firstn]; [constructor|].
  constructor; [now apply IH|].
  apply Forall_forall. intros y Hy.
  rewrite Forall_forall in Hx. apply Hx.
  rewrite <- (firstn_skipn n l). apply in_or_app. now left.
Qed.

Lemma StronglySorted_app_inv (R : A -> A -> Prop) l1 : forall l2,
  StronglySorted R (l1 ++ l2) ->
  forall a b, In a l1 -> In b l2 -> R a b.
Proof.
  induction l1 as [|x l1 IH]; intros l2 Hs a b Ha Hb; [contradiction|].
  cbn [app] in Hs. inversion Hs as [|? ? Hs' Hx]; subst.
  destruct Ha as [<- | Ha].
  - rewrite Forall_forall in Hx. apply Hx, in_or_app. now right.
  - now apply (IH l2).
Qed.

(** In a sorted list, an entry that may not stand after another one stands
    before it. *)
Lemma sorted_ranks_before (R : A -> A -> Prop) l a b :
  StronglySorted R l -> R a a -> ~ R b a -> In a l -> In b l ->
  ranks_before a b l.
Proof.
  intros Hs Haa Hba Ha Hb.
  destruct (in_split _ _ Hb) as [l1 [l3 ->]].
  assert (Ha1 : In a l1).
  { apply in_app_or in Ha. destruct Ha as [Ha | [<- | Ha]];
      [exact Ha | contradiction |].
    exfalso. apply Hba.
    replace (l1 ++ b :: l3) with ((l1 ++ [b]) ++ l3) in Hs
      by now rewrite <- app_assoc.
    apply (StronglySorted_app_inv R _ _ Hs); [|exact Ha].
    apply in_or_app. right. now left. }
  destruct (in_split _ _ Ha1) as [l0 [l2 ->]].
  exists l0, l2, l3. now rewrite <- app_assoc.
Qed.

End SliceFacts.

(** ** The comparator on weighted scores *)

Lemma sorts_after_weighted a b :
  sorts_after by_weighted_desc a b = (weighted a <? weighted b)%float.
Proof. unfold sorts_after, by_weighted_desc. apply float_sub_pos. Qed.

Lemma weighted_after_asym a b :
  sorts_after by_weighted_desc a b = true ->
  sorts_after by_weighted_desc b a = false.
Proof. rewrite !sorts_after_weighted. apply float_ltb_asym. Qed.

Lemma weighted_after_negtrans a b c :
  is_nan (weighted b) = false ->
  sorts_after by_weighted_desc a b = false ->
  sorts_after by_weighted_desc b c = false ->
  sorts_after by_weighted_desc a c = false.
Proof. rewrite !sorts_after_weighted. apply float_ltb_negtrans. Qed.

(** Sorting scored entries none of whose weighted scores is [NaN] yields a
    descending list. *)
Lemma sort_descending l :
  no_nan_weighted l -> descending (Array_sort by_weighted_desc l).
Proof.
  intros Hok. unfold descending.
  pose proof (sort_sorted by_weighted_desc
                (fun s => is_nan (weighted s) = false)
                weighted_after_asym weighted_after_negtrans l Hok) as Hs.
  pose proof (Permutation_Forall (sort_perm by_weighted_desc l) Hok) as Hok'.
  revert Hs Hok'. generalize (Array_sort by_weighted_desc l). intros s Hs.
  induction Hs as [|x s Hs IH Hx]; intros Hok'; [constructor|].
  inversion Hok' as [|? ? Hokx Hoks]; subst.
  constructor; [now apply IH|].
  rewrite Forall_forall in *. intros y Hy.
  apply float_leb_of_not_ltb; [exact Hokx | now apply Hoks |].
  rewrite <- sorts_after_weighted. now apply Hx.
Qed.

(** Sorting keeps the entries of one weighted score in their order. *)
Lemma sort_stable v l :
  with_weighted v (Array_sort by_weighted_desc l) = with_weighted v l.
Proof.
  unfold with_weighted. apply filter_sort.
  intros x y Hx Hy. rewrite sorts_after_weighted.
  now apply (float_eqb_ltb _ _ v).
Qed.

(** ** The handlers *)

Lemma find_chunk_none index i :
  (forall c, In c (chunks index) -> id c <> i) -> find_chunk index i = None.
Proof.
  unfold find_chunk. induction (chunks index) as [|c l IH]; intros H;
    [reflexivity|].
  cbn [find]. destruct (str_eqb (id c) i) eqn:E.
  - apply str_eqb_eq in E. exfalso. apply (H c); [now left | exact E].
  - apply IH. intros c' Hc'. apply H. now right.
Qed.

Lemma normalizeSearchArgs_query raw :
  query (normalizeSearchArgs raw)
  = match located_query (unwrap raw) with Some s => s | None => [] end.
Proof.
  unfold normalizeSearchArgs, located_query, get_property.
  destruct (unwrap raw) as [| | b | x | s | items | fs]; try reflexivity.
  destruct (lookup (lit "query") fs) as [[| | b | x | s | items | fs']|];
    try reflexivity;
    destruct (lookup (lit "q") fs) as [[| | b' | x' | s' | items' | fs'']|];
    reflexivity.
Qed.

Lemma clamped_topK_range f : (1 <= clamped_topK f <= 20)%Z.
Proof.
  unfold clamped_topK.
  destruct f as [[| | b | x | s | items | fs]|]; try lia.
  destruct (is_finite x); lia.
Qed.

Lemma normalizeSearchArgs_topK raw :
  topK (normalizeSearchArgs raw)
  = match unwrap raw with
    | JObj fs =>
        match located_query (JObj fs) with
        | Some _ => clamped_topK (lookup (lit "topK") fs)
        | None => 8%Z
        end
    | _ => 8%Z
    end.
Proof.
  unfold normalizeSearchArgs, located_query, get_property, clamped_topK,
    Number_isFinite, DEFAULT_TOPK.
  destruct (unwrap raw) as [| | b | x | s | items | fs]; try reflexivity.
  destruct (lookup (lit "query") fs) as [[| | b | x | s | items | fs']|];
    try (destruct (lookup (lit "q") fs)
           as [[| | b' | x' | s' | items' | fs'']|]);
    try reflexivity; cbn [topK];
    destruct (lookup (lit "topK") fs) as [[]|]; reflexivity.
Qed.

Lemma normalizeSearchArgs_topK_range raw :
  (1 <= topK (normalizeSearchArgs raw) <= 20)%Z.
Proof.
  rewrite normalizeSearchArgs_topK.
  destruct (unwrap raw); try lia.
  destruct (located_query (JObj fields)); [apply clamped_topK_range | lia].
Qed.

Section HandlerFacts.
Variable base : jsstring.
Variable provider : jsstring -> list jsstring -> outcome (list (list float)).
Variable index : IndexFile.

Lemma search_rejects raw :
  trim (query (normalizeSearchArgs raw)) = [] ->
  run (search base provider index raw)
  = (Returned
       {| isError := true;
          content :=
            ErrorPayload (lit "invalid_query")
              (lit "search arguments did not contain a valid query string") |},
     []).
Proof. intros H. unfold run, search, try_catch. now rewrite H. Qed.

Lemma search_answers raw qEmb rest :
  trim (query (normalizeSearchArgs raw)) <> [] ->
  provider (model index) [trim (query (normalizeSearchArgs raw))]
  = Returned (qEmb :: rest) ->
  run (search base provider index raw)
  = (Returned
       {| isError := false;
          content :=
            ResultsPayload
              (map (result_of base)
                 (McpRemote.scored qEmb (chunks index)
                    (topK (normalizeSearchArgs raw)))) |},
     [{| call_model := model index;
         call_input := [trim (query (normalizeSearchArgs raw))] |}]).
Proof.
  intros Hq Hp.
  unfold run, search, try_catch, embedQuery, bind, call_provider, ret.
  destruct (trim (query (normalizeSearchArgs raw))) as [|c q] eqn:E;
    [congruence|].
  cbn [is_empty]. now rewrite Hp.
Qed.

(** A failure of the provider is caught and surfaced as [search_failed]
    with its message. *)
Lemma search_fails raw e :
  trim (query (normalizeSearchArgs raw)) <> [] ->
  provider (model index) [trim (query (normalizeSearchArgs raw))] = Thrown e ->
  run (search base provider index raw)
  = (Returned
       {| isError := true; content := ErrorPayload (lit "search_failed") e |},
     [{| call_model := model index;
         call_input := [trim (query (normalizeSearchArgs raw))] |}]).
Proof.
  intros Hq Hp.
  unfold run, search, try_catch, embedQuery, bind, call_provider, ret.
  destruct (trim (query (normalizeSearchArgs raw))) as [|c q] eqn:E;
    [congruence|].
  cbn [is_empty]. now rewrite Hp.
Qed.

Lemma fetch_rejects raw :
  trim (normalizeFetchArgs raw) = [] ->
  run (fetch base index raw)
  = (Returned
       {| isError := true;
          content :=
            ErrorPayload (lit "invalid_id")
              (lit "fetch arguments did not contain a valid id string") |},
     []).
Proof. intros H. unfold run, fetch, try_catch. now rewrite H. Qed.

End HandlerFacts.

Lemma normalizeFetchArgs_located raw :
  normalizeFetchArgs raw
  = match located_id (unwrap raw) with Some s => s | None => [] end.
Proof.
  unfold normalizeFetchArgs, located_id, get_property.
  destruct (unwrap raw) as [| | b | x | s | items | fs]; try reflexivity.
  destruct (lookup (lit "id") fs) as [[| | b | x | s | items | fs']|];
    reflexivity.
Qed.

Lemma unwrap_idempotent v : unwrap (unwrap v) = unwrap v.
Proof.
  destruct (unwrap_stops v) as [Ha Hi].
  rewrite (unwrap_spec (unwrap v)). now rewrite Ha, Hi.
Qed.

(** ** Ranking *)

Lemma In_Array_slice0 {A : Type} (k : Z) (l : list A) x :
  In x (Array_slice0 k l) -> In x l.
Proof.
  unfold Array_slice0. intros H.
  destruct (k <? 0)%Z;
    match type of H with In _ (firstn ?n _) =>
      rewrite <- (firstn_skipn n l); apply in_or_app; now left
    end.
Qed.

(** The chain [map(f).sort(...).slice(0, k)] of every ranking loop: the
    first [k] entries of a list that holds the scored chunks, each once,
    descending when no weighted score is [NaN], entries of equal weighted
    score in the order of the index. *)
Lemma ranking_chain (f : IndexedChunk -> Scored) (chunks : list IndexedChunk)
  (k : Z) :
  (0 <= k)%Z ->
  exists sorted,
    Permutation (map f chunks) sorted
    /\ (no_nan_weighted (map f chunks) -> descending sorted)
    /\ (forall v, with_weighted v sorted = with_weighted v (map f chunks))
    /\ Array_slice0 k (Array_sort by_weighted_desc (map f chunks))
       = firstn (Z.to_nat k) sorted.
Proof.
  intros Hk. exists (Array_sort by_weighted_desc (map f chunks)).
  split; [apply sort_perm|].
  split; [apply sort_descending|].
  split; [intros v; apply sort_stable|].
  now apply Array_slice0_firstn.
Qed.

Lemma ranking_entries (f : IndexedChunk -> Scored) (chunks : list IndexedChunk)
  (k : Z) (P : Scored -> Prop) :
  (forall c, In c chunks -> P (f c)) ->
  Forall P (Array_slice0 k (Array_sort by_weighted_desc (map f chunks))).
Proof.
  intros H. apply Forall_forall. intros r Hr.
  apply In_Array_slice0 in Hr.
  apply (Permutation_in _ (Permutation_sym (sort_perm _ _))) in Hr.
  apply in_map_iff in Hr. destruct Hr as [c [<- Hc]]. now apply H.
Qed.

Lemma descending_firstn n l : descending l -> descending (firstn n l).
Proof. apply StronglySorted_firstn. Qed.

(** In a descending list an entry of strictly greater weighted score stands
    before one of smaller score; so it does among the first [n] entries, if
    the smaller one is among them. *)
Lemma descending_ranks_before l a b :
  descending l -> is_nan (weighted a) = false ->
  (weighted b <? weighted a)%float = true ->
  In a l -> In b l -> ranks_before a b l.
Proof.
  intros Hd Ha Hlt Hina Hinb.
  apply (sorted_ranks_before _ l a b Hd); try assumption.
  - apply float_leb_of_not_ltb; try assumption.
    apply float_ltb_asym in Hlt.
    destruct (weighted a <? weighted a)%float eqn:E; [|reflexivity].
    now rewrite (float_ltb_asym _ _ E) in E.
  - intros Hle. apply float_ltb_of_leb in Hle. congruence.
Qed.

Lemma descending_ranks_before_firstn n l a b :
  descending l -> is_nan (weighted a) = false ->
  (weighted b <? weighted a)%float = true ->
  In a l -> In b (firstn n l) -> ranks_before a b (firstn n l).
Proof.
  intros Hd Ha Hlt Hina Hinb.
  apply descending_ranks_before; try assumption.
  - now apply descending_firstn.
  - rewrite <- (firstn_skipn n l) in Hina, Hd.
    apply in_app_or in Hina. destruct Hina as [Hina | Hina]; [exact Hina|].
    exfalso.
    pose proof (StronglySorted_app_inv _ _ _ Hd b a Hinb Hina) as Hle.
    cbn beta in Hle. apply float_ltb_of_leb in Hle. congruence.
Qed.

(** Two descending arrangements of the same entries that keep the entries of
    each weighted score in the same order are one list: the result of the
    ranking does not depend on how the engine sorts. *)
Lemma stable_descending_unique l1 : forall l2,
  no_nan_weighted l1 -> Permutation l1 l2 ->
  descending l1 -> descending l2 ->
  (forall v, with_weighted v l1 = with_weighted v l2) ->
  l1 = l2.
Proof.
  induction l1 as [|x t1 IH]; intros l2 Hok Hp Hd1 Hd2 Hst.
  - now apply Permutation_nil in Hp.
  - destruct l2 as [|y t2];
      [apply Permutation_sym, Permutation_nil in Hp; discriminate|].
    inversion Hok as [|? ? Hokx Hokt]; subst.
    inversion Hd1 as [|? ? Hd1' Hx]; subst.
    inversion Hd2 as [|? ? Hd2' Hy]; subst.
    rewrite Forall_forall in Hx, Hy.
    assert (Hoky : is_nan (weighted y) = false).
    { pose proof (Permutation_Forall Hp Hok) as Hok2.
      now inversion Hok2. }
    assert (Hyx : (weighted y <=? weighted x)%float = true).
    { assert (Hin : In y (x :: t1))
        by (apply (Permutation_in _ (Permutation_sym Hp)); now left).
      destruct Hin as [<- | Hin]; [|now apply Hx].
      apply float_leb_of_not_ltb; try assumption.
      apply (float_eqb_ltb _ _ (weighted x)); now apply float_eqb_refl. }
    assert (Hxy : (weighted x <=? weighted y)%float = true).
    { assert (Hin : In x (y :: t2)) by (apply (Permutation_in _ Hp); now left).
      destruct Hin as [<- | Hin]; [exact Hyx | now apply Hy]. }
    assert (Heq : (weighted y =? weighted x)%float = true).
    { apply float_eqb_of_not_ltb; try assumption;
        now apply float_ltb_of_leb. }
    assert (Hxyeq : x = y).
    { specialize (Hst (weighted x)). unfold with_weighted in Hst.
      cbn [filter] in Hst.
      rewrite (float_eqb_refl _ Hokx), Heq in Hst. now injection Hst. }
    subst y. f_equal. apply IH; try assumption.
    + now apply Permutation_cons_inv in Hp.
    + intros v. specialize (Hst v). unfold with_weighted in *.
      cbn [filter] in Hst.
      destruct (weighted x =? v)%float; [now injection Hst | exact Hst].
Qed.

(** ** Similarity *)

Lemma cosineSim_comm a b :
  List.length a = List.length b -> cosineSim a b = cosineSim b a.
Proof.
  intros H. unfold cosineSim.
  rewrite (orb_comm (norm a =? 0)%float), (dot_comm a b H),
    (float_mul_comm (norm a)).
  reflexivity.
Qed.

Lemma cosineSim_short a b :
  (List.length b < List.length a)%nat ->
  cosineSim a b = nan \/ cosineSim a b = 0%float.
Proof.
  intros H. unfold cosineSim.
  destruct ((norm a =? 0)%float || (norm b =? 0)%float); [now right|].
  left. unfold dot. rewrite (dot_loop_short a 0%float b H).
  apply float_div_nan_l.
Qed.

(** ** Products with a finite weight *)

Section Binary64More.
Local Open Scope Z_scope.

Lemma shr_1_nonneg mrs : 0 <= shr_m mrs -> 0 <= shr_m (shr_1 mrs).
Proof. intros H. rewrite shr_1_m by exact H. apply Z.div_pos; lia. Qed.

Lemma shr_fexp_nonneg p e l :
  0 <= shr_m (fst (shr_fexp prec emax (Zpos p) e l)).
Proof.
  unfold shr_fexp, shr.
  destruct (fexp prec emax (Zdigits2 (Zpos p) + e) - e) as [|n|n];
    cbn [fst]; rewrite ?iter_shr_1_m; rewrite ?shr_record_of_loc_m; try lia.
  apply Z.div_pos; [lia | apply Z.pow_pos_nonneg; lia].
Qed.

Lemma shr_fexp_nonneg' m e l :
  0 <= m -> 0 <= shr_m (fst (shr_fexp prec emax m e l)).
Proof.
  intros H. destruct m as [|p|p]; [|apply shr_fexp_nonneg|lia].
  unfold shr_fexp, shr.
  destruct (fexp prec emax (Zdigits2 0 + e) - e) as [|n|n];
    cbn [fst]; rewrite ?iter_shr_1_m; rewrite ?shr_record_of_loc_m;
    try lia; try reflexivity.
Qed.

(** Rounding a positive significand never gives [NaN]. *)
Lemma binary_round_aux_not_nan s p e l :
  SF_is_nan (binary_round_aux prec emax s (Zpos p) e l) = false.
Proof.
  unfold binary_round_aux.
  pose proof (shr_fexp_nonneg p e l) as H1.
  destruct (shr_fexp prec emax (Zpos p) e l) as [mrs' e']. cbn [fst] in H1.
  assert (H2 : 0 <= round_nearest_even (shr_m mrs') (loc_of_shr_record mrs')).
  { unfold round_nearest_even.
    destruct (loc_of_shr_record mrs') as [|[]]; try lia.
    destruct (Z.even (shr_m mrs')); lia. }
  pose proof (shr_fexp_nonneg' _ e' loc_Exact H2) as H3.
  destruct (shr_fexp prec emax
              (round_nearest_even (shr_m mrs') (loc_of_shr_record mrs'))
              e' loc_Exact) as [mrs'' e'']. cbn [fst] in H3.
  destruct (shr_m mrs'') as [|q|q]; try lia; try reflexivity.
  destruct (e'' <=? emax - prec); reflexivity.
Qed.

(** A product with a finite non-zero factor is [NaN] only if the other
    factor is. *)
Lemma SF64mul_nan_finite x s m e :
  SF_is_nan (SF64mul x (S754_finite s m e)) = SF_is_nan x.
Proof.
  unfold SF64mul, SFmul.
  destruct x as [sx|sx| |sx mx ex]; try reflexivity.
  apply binary_round_aux_not_nan.
Qed.

Lemma float_mul_nan_finite x w :
  finite_nonzero w -> is_nan (x * w)%float = is_nan x.
Proof.
  intros [s [m [e Hw]]]. rewrite !is_nan_spec, mul_spec, Hw.
  apply SF64mul_nan_finite.
Qed.
End Binary64More.

Section MulOne.
Local Open Scope Z_scope.

Lemma SF64mul_one_finite s m e :
  bounded prec emax m e = true ->
  SF64mul (S754_finite s m e) (Prim2SF 1%float) = S754_finite s m e.
Proof.
  intros Hb.
  pose proof (bounded_canonical m e Hb) as Hc.
  assert (He : e <= emax - prec).
  { unfold bounded in Hb. apply andb_true_iff in Hb. destruct Hb as [_ Hb].
    now apply Z.leb_le in Hb. }
  change (Prim2SF 1%float) with (S754_finite false 4503599627370496 (-52)).
  unfold SF64mul, SFmul. rewrite xorb_false_r.
  rewrite (Pos.mul_comm m). cbn [Pos.mul].
  unfold binary_round_aux, shr_fexp. cbn [Zdigits2 digits2_pos].
  rewrite !Pos2Z.inj_succ.
  replace (fexp prec emax _) with e.
  2:{ unfold fexp, SpecFloat.emin, prec, emax. lia. }
  replace (e - (e + -52)) with 52 by lia.
  cbn [shr iter_pos shr_record_of_loc shr_1 orb shr_m shr_r shr_s
       loc_of_shr_record round_nearest_even fst snd].
  replace (e + -52 + 52) with e by lia.
  replace (fexp prec emax (Zdigits2 (Zpos m) + e) - e) with 0.
  2:{ unfold fexp, SpecFloat.emin, prec, emax. cbn [Zdigits2]. lia. }
  cbn [shr shr_m].
  apply Z.leb_le in He. now rewrite He.
Qed.

Lemma float_mul_1_r x : (x * 1)%float = x.
Proof.
  apply Prim2SF_inj. rewrite mul_spec.
  pose proof (Prim2SF_valid x) as Hv.
  destruct (Prim2SF x) as [s|s| |s m e] eqn:E.
  - change (Prim2SF 1%float) with (S754_finite false 4503599627370496 (-52)).
    cbn. now rewrite xorb_false_r.
  - change (Prim2SF 1%float) with (S754_finite false 4503599627370496 (-52)).
    cbn. now rewrite xorb_false_r.
  - reflexivity.
  - now apply SF64mul_one_finite.
Qed.
End MulOne.

(** ** Trimming *)

(** ** Trimming *)

Lemma trimStart_split s :
  exists pad, s = pad ++ trimStart s /\ all_white_space pad.
Proof.
  induction s as [|c s [pad [E Hp]]]; [exists []; split; constructor|].
  cbn [trimStart]. destruct (is_white_space c) eqn:Ec.
  - exists (c :: pad). split; [cbn; now f_equal | now constructor].
  - exists []. split; constructor.
Qed.


Lemma trimStart_pad pad s :
  all_white_space pad -> trimStart (pad ++ s) = trimStart s.
Proof.
  induction 1 as [|c pad Hc _ IH]; [reflexivity|].
  cbn [app trimStart]. now rewrite Hc.
Qed.

Lemma trimStart_all pad : all_white_space pad -> trimStart pad = [].
Proof.
  intros H. rewrite <- (app_nil_r pad). now rewrite trimStart_pad.
Qed.

Lemma trimStart_app s t :
  trimStart s <> [] -> trimStart (s ++ t) = trimStart s ++ t.
Proof.
  induction s as [|c s IH]; [intros H; now contradiction H|].
  cbn [app trimStart]. destruct (is_white_space c); [exact IH | reflexivity].
Qed.

Lemma trimStart_fixed s c t :
  s = c :: t -> is_white_space c = false -> trimStart s = s.
Proof. intros -> H. cbn [trimStart]. now rewrite H. Qed.



Lemma trimEnd_pad s pad :
  all_white_space pad -> trimEnd (s ++ pad) = trimEnd s.
Proof.
  intros H. unfold trimEnd. rewrite rev_app_distr, trimStart_pad;
    [reflexivity|].
  unfold all_white_space in *. rewrite Forall_forall in *.
  intros c Hc. apply H. now apply in_rev.
Qed.



Lemma trim_pad p1 s p2 :
  all_white_space p1 -> all_white_space p2 ->
  trim (p1 ++ s ++ p2) = trim s.
Proof.
  intros H1 H2. unfold trim. rewrite trimStart_pad by exact H1.
  destruct (trimStart s) as [|c u] eqn:Eu.
  - destruct (trimStart_split s) as [pad [E Hp]]. rewrite Eu, app_nil_r in E.
    subst pad. rewrite trimStart_all; [reflexivity|].
    apply Forall_app. now split.
  - rewrite trimStart_app by congruence. rewrite Eu.
    now apply trimEnd_pad.
Qed.


(** ** Lookups and handler outcomes *)

Lemma find_first {A : Type} (f : A -> bool) l c :
  find f l = Some c ->
  exists l1 l2,
    l = l1 ++ c :: l2 /\ f c = true /\ Forall (fun x => f x = false) l1.
Proof.
  induction l as [|x l IH]; [discriminate|].
  cbn [find]. destruct (f x) eqn:E.
  - intros H. injection H as <-. exists [], l. repeat split; auto.
  - intros H. destruct (IH H) as [l1 [l2 [-> [Hc Hl]]]].
    exists (x :: l1), l2. repeat split; auto.
Qed.

Lemma find_chunk_first index i c :
  find_chunk index i = Some c ->
  exists l1 l2,
    chunks index = l1 ++ c :: l2 /\ id c = i
    /\ Forall (fun x => id x <> i) l1.
Proof.
  unfold find_chunk. intros H.
  destruct (find_first _ _ _ H) as [l1 [l2 [E [Hc Hl]]]].
  exists l1, l2. split; [exact E|]. split; [now apply str_eqb_eq|].
  revert Hl. apply Forall_impl. intros x Hx Heq.
  apply str_eqb_eq in Heq. congruence.
Qed.

Lemma find_chunk_miss index i :
  find_chunk index i = None -> forall c, In c (chunks index) -> id c <> i.
Proof.
  unfold find_chunk. intros H c Hc Heq.
  pose proof (find_none _ _ H c Hc) as Hf. cbn in Hf.
  apply str_eqb_eq in Heq. congruence.
Qed.

Lemma NoDup_map_eq {A B : Type} (f : A -> B) l a b :
  NoDup (map f l) -> In a l -> In b l -> f a = f b -> a = b.
Proof.
  induction l as [|x l IH]; [contradiction|].
  cbn [map]. intros Hnd Ha Hb Hab. inversion Hnd as [|? ? Hx Hnd']; subst.
  destruct Ha as [<- | Ha], Hb as [<- | Hb]; auto.
  - exfalso. apply Hx. rewrite Hab. now apply in_map.
  - exfalso. apply Hx. rewrite <- Hab. now apply in_map.
Qed.

(** With ids that belong to one chunk each, looking an id up gives back the
    chunk that has it. *)
Lemma find_chunk_unique index c :
  NoDup (map id (chunks index)) -> In c (chunks index) ->
  find_chunk index (id c) = Some c.
Proof.
  intros Hnd Hc.
  destruct (find_chunk index (id c)) as [c'|] eqn:E.
  - destruct (find_chunk_first _ _ _ E) as [l1 [l2 [El [Hid _]]]].
    f_equal. apply (NoDup_map_eq id (chunks index)); auto.
    rewrite El. apply in_or_app. right. now left.
  - exfalso. exact (find_chunk_miss _ _ E c Hc eq_refl).
Qed.

Section OutcomeFacts.
Variable base : jsstring.
Variable provider : jsstring -> list jsstring -> outcome (list (list float)).
Variable index : IndexFile.

Lemma fetch_hits raw c :
  trim (normalizeFetchArgs raw) <> [] ->
  find_chunk index (trim (normalizeFetchArgs raw)) = Some c ->
  run (fetch base index raw)
  = (Returned {| isError := false; content := doc_of base c |}, []).
Proof.
  intros Hne Hf. unfold run, fetch, try_catch.
  destruct (trim (normalizeFetchArgs raw)) eqn:E; [congruence|].
  cbn [is_empty]. now rewrite Hf.
Qed.

Lemma fetch_misses raw :
  trim (normalizeFetchArgs raw) <> [] ->
  find_chunk index (trim (normalizeFetchArgs raw)) = None ->
  run (fetch base index raw)
  = (Returned
       {| isError := true;
          content := not_found_doc base (trim (normalizeFetchArgs raw)) |},
     []).
Proof.
  intros Hne Hf. unfold run, fetch, try_catch.
  destruct (trim (normalizeFetchArgs raw)) eqn:E; [congruence|].
  cbn [is_empty]. now rewrite Hf.
Qed.

(** The provider answers with an empty [data]: the [TypeError] of
    [embedQuery] is caught like any other failure. *)
Lemma search_fails_on_empty_data raw :
  trim (query (normalizeSearchArgs raw)) <> [] ->
  provider (model index) [trim (query (normalizeSearchArgs raw))]
  = Returned [] ->
  run (search base provider index raw)
  = (Returned
       {| isError := true;
          content :=
            ErrorPayload (lit "search_failed")
              (lit "Cannot read properties of undefined (reading 'embedding')") |},
     [{| call_model := model index;
         call_input := [trim (query (normalizeSearchArgs raw))] |}]).
Proof.
  intros Hq Hp.
  unfold run, search, try_catch, embedQuery, bind, call_provider, throw.
  destruct (trim (query (normalizeSearchArgs raw))) as [|c q] eqn:E;
    [congruence|].
  cbn [is_empty]. now rewrite Hp.
Qed.

(** Every way a search can end. *)
Lemma search_cases raw :
  (trim (query (normalizeSearchArgs raw)) = []
   /\ run (search base provider index raw)
      = (Returned
           {| isError := true;
              content :=
                ErrorPayload (lit "invalid_query")
                  (lit "search arguments did not contain a valid query string") |},
         []))
  \/ (trim (query (normalizeSearchArgs raw)) <> []
      /\ exists r,
          run (search base provider index raw)
          = (Returned r,
             [{| call_model := model index;
                 call_input := [trim (query (normalizeSearchArgs raw))] |}])
          /\ ((exists e,
                 r = {| isError := true;
                        content := ErrorPayload (lit "search_failed") e |})
              \/ (exists qEmb,
                    r = {| isError := false;
                           content :=
                             ResultsPayload
                               (map (result_of base)
                                  (McpRemote.scored qEmb (chunks index)
                                     (topK (normalizeSearchArgs raw)))) |}))).
Proof.
  destruct (trim (query (normalizeSearchArgs raw))) as [|c q] eqn:E.
  - left. split; [reflexivity|]. apply search_rejects. exact E.
  - right. split; [discriminate|]. rewrite <- E.
    assert (Hq : trim (query (normalizeSearchArgs raw)) <> [])
      by (rewrite E; discriminate).
    destruct (provider (model index) [trim (query (normalizeSearchArgs raw))])
      as [[|qEmb rest]|e] eqn:Hp.
    + eexists. split; [now apply search_fails_on_empty_data|].
      left. eexists. reflexivity.
    + eexists. split; [now apply (search_answers _ _ _ _ qEmb rest)|].
      right. eexists. reflexivity.
    + eexists. split; [now apply (search_fails _ _ _ _ e)|].
      left. eexists. reflexivity.
Qed.

End OutcomeFacts.

(** The entries of a ranking come from the index. *)
Lemma scored_from_index qEmb chunks k s :
  In s (McpRemote.scored qEmb chunks k) ->
  exists c, In c chunks /\ s = McpRemote.score_chunk qEmb c.
Proof.
  intros H. unfold McpRemote.scored in H. apply In_Array_slice0 in H.
  apply (Permutation_in _ (Permutation_sym (sort_perm _ _))) in H.
  apply in_map_iff in H. destruct H as [c [<- Hc]]. now exists c.
Qed.

Lemma NoDup_firstn {A : Type} n (l : list A) : NoDup l -> NoDup (firstn n l).
Proof.
  revert l. induction n as [|n IH]; intros l H; [constructor|].
  destruct H as [|x l Hx H]; cbn [firstn]; constructor.
  - intros Hin. apply Hx. rewrite <- (firstn_skipn n l).
    apply in_or_app. now left.
  - now apply IH.
Qed.

Lemma Array_slice0_prefix {A : Type} (k : Z) (l : list A) :
  exists n, Array_slice0 k l = firstn n l.
Proof. unfold Array_slice0. destruct (k <? 0)%Z; eexists; reflexivity. Qed.

(** Sorting a mapped array: when the comparators agree through the map,
    mapping and sorting commute. *)
Lemma Array_sort_map {A B : Type} (f : A -> B)
  (cmpA : A -> A -> float) (cmpB : B -> B -> float) :
  (forall x y, cmpB (f x) (f y) = cmpA x y) ->
  forall l, Array_sort cmpB (map f l) = map f (Array_sort cmpA l).
Proof.
  intros Hc.
  assert (Hi : forall x l,
    insert cmpB (f x) (map f l) = map f (insert cmpA x l)).
  { intros x l. induction l as [|y l IH]; [reflexivity|].
    cbn [map insert]. unfold sorts_after. rewrite Hc.
    destruct (0 <? cmpA x y)%float; cbn [map]; [now rewrite IH | reflexivity]. }
  induction l as [|x l IH]; [reflexivity|].
  cbn [map Array_sort fold_right].
  change (fold_right (insert cmpB) [] (map f l))
    with (Array_sort cmpB (map f l)).
  rewrite IH. apply Hi.
Qed.

Lemma Array_slice0_map {A B : Type} (f : A -> B) k (l : list A) :
  Array_slice0 k (map f l) = map f (Array_slice0 k l).
Proof.
  unfold Array_slice0. rewrite length_map.
  destruct (k <? 0)%Z; apply firstn_map.
Qed.

(** ** Weights *)

Lemma McpRemote_sourceWeight_finite src :
  finite_nonzero (McpRemote.sourceWeight src).
Proof.
  unfold McpRemote.sourceWeight, finite_nonzero.
  repeat match goal with |- context [if ?b then _ else _] => destruct b end;
    eexists _, _, _; vm_compute; reflexivity.
Qed.

Lemma Server_sourceWeight_finite src :
  finite_nonzero (Server.sourceWeight src).
Proof.
  unfold Server.sourceWeight, finite_nonzero.
  repeat match goal with |- context [if ?b then _ else _] => destruct b end;
    eexists _, _, _; vm_compute; reflexivity.
Qed.

Lemma headingWeight_values h q :
  Server.headingWeight h q = 1.0%float
  \/ Server.headingWeight h q = 1.05%float
  \/ Server.headingWeight h q = 1.25%float
  \/ Server.headingWeight h q = 1.35%float.
Proof.
  unfold Server.headingWeight.
  repeat match goal with |- context [if ?b then _ else _] => destruct b end;
    auto.
Qed.

Lemma headingWeight_finite h q : finite_nonzero (Server.headingWeight h q).
Proof.
  unfold finite_nonzero.
  destruct (headingWeight_values h q) as [-> | [-> | [-> | ->]]];
    eexists _, _, _; vm_compute; reflexivity.
Qed.

(** ** Previews *)

Lemma collapse_head s c t :
  collapse_white_space true s = c :: t -> is_white_space c = false.
Proof.
  induction s as [|d s IH]; [discriminate|].
  cbn [collapse_white_space]. destruct (is_white_space d) eqn:E; [exact IH|].
  intros H. injection H as <- _. exact E.
Qed.

Lemma collapse_spaces s : forall r c,
  In c (collapse_white_space r s) -> is_white_space c = true ->
  c = 0x20%N.
Proof.
  induction s as [|d s IH]; intros r c; [contradiction|].
  cbn [collapse_white_space].
  destruct (is_white_space d) eqn:E; [destruct r|]; cbn [In].
  - apply IH.
  - intros [<- | H]; [reflexivity | now apply (IH true)].
  - intros [<- | H]; [congruence | now apply (IH false)].
Qed.

Lemma collapse_no_run s : forall r l1 a b l2,
  collapse_white_space r s = l1 ++ a :: b :: l2 ->
  is_white_space a = true -> is_white_space b = false.
Proof.
  induction s as [|d s IH]; intros r l1 a b l2.
  - cbn. destruct l1; discriminate.
  - cbn [collapse_white_space].
    destruct (is_white_space d) eqn:E; [destruct r|].
    + apply IH.
    + destruct l1 as [|x l1]; cbn [app]; intros H Ha.
      * injection H as <- H. exact (collapse_head _ _ _ H).
      * injection H as _ H. exact (IH true _ _ _ _ H Ha).
    + destruct l1 as [|x l1]; cbn [app]; intros H Ha.
      * injection H as <- H. congruence.
      * injection H as _ H. exact (IH false _ _ _ _ H Ha).
Qed.

Lemma collapse_length s : forall r,
  (List.length (collapse_white_space r s) <= List.length s)%nat.
Proof.
  induction s as [|d s IH]; intros r; [apply le_n|].
  cbn [collapse_white_space].
  pose proof (IH true). pose proof (IH false).
  destruct (is_white_space d); [destruct r|]; cbn [List.length]; lia.
Qed.

Lemma collapse_unchanged s : forall r,
  Forall (fun c => is_white_space c = false) s ->
  collapse_white_space r s = s.
Proof.
  induction s as [|d s IH]; intros r H; [reflexivity|].
  inversion H as [|? ? Hd Hs]; subst.
  cbn [collapse_white_space]. rewrite Hd. f_equal. now apply IH.
Qed.

Lemma collapse_idempotent s :
  (forall r,
      collapse_white_space false (collapse_white_space r s)
      = collapse_white_space r s)
  /\ collapse_white_space true (collapse_white_space true s)
     = collapse_white_space true s.
Proof.
  induction s as [|d s [IH1 IH2]]; [split; [intros r|]; reflexivity|].
  assert (Hsp : is_white_space 0x20 = true) by reflexivity.
  split; [intros r|]; cbn [collapse_white_space];
    destruct (is_white_space d) eqn:E.
  - destruct r; [apply IH1|].
    cbn [collapse_white_space]. rewrite Hsp. f_equal. exact IH2.
  - cbn [collapse_white_space]. rewrite E. f_equal. apply IH1.
  - exact IH2.
  - cbn [collapse_white_space]. rewrite E. f_equal. apply IH1.
Qed.

(** A prefix of a white-space-collapsed text is collapsed. *)
Lemma collapse_firstn s : forall r n,
  collapse_white_space r s = s ->
  collapse_white_space r (firstn n s) = firstn n s.
Proof.
  induction s as [|d s IH]; intros r n; [now rewrite firstn_nil|].
  destruct n as [|n]; [reflexivity|].
  cbn [collapse_white_space firstn].
  destruct (is_white_space d) eqn:E; [destruct r|].
  - intros H. exfalso.
    pose proof (collapse_length s true) as Hl. rewrite H in Hl.
    cbn [List.length] in Hl. lia.
  - intros H. injection H as Hd H. f_equal; [exact Hd|]. now apply IH.
  - intros H. injection H as H. f_equal. now apply IH.
Qed.

Lemma find_chunk_at index i before c after :
  chunks index = before ++ c :: after -> id c = i ->
  Forall (fun x => id x <> i) before ->
  find_chunk index i = Some c.
Proof.
  unfold find_chunk. intros -> Hid Hb.
  induction before as [|x l IH]; cbn [app find].
  - apply str_eqb_eq in Hid. now rewrite Hid.
  - inversion Hb as [|? ? Hx Hl]; subst.
    destruct (str_eqb (id x) (id c)) eqn:E;
      [apply str_eqb_eq in E; contradiction|].
    now apply IH.
Qed.

(** The stdio server's hit records are the scored chunks of
    [src/mcp_remote.ts], dressed: sorting the one or the other is the same
    thing. *)
Lemma stdio_sorted_hits (f : Scored -> Hit) qEmb chunks :
  (forall s, hit_weighted (f s) = weighted s) ->
  (forall c, StdioServer.hit_of_chunk qEmb c = f (McpRemote.score_chunk qEmb c)) ->
  forall k,
  Array_slice0 k
    (Array_sort StdioServer.by_hit_weighted_desc
       (map (StdioServer.hit_of_chunk qEmb) chunks))
  = map f (McpRemote.scored qEmb chunks k).
Proof.
  intros Hw Hf k. unfold McpRemote.scored.
  rewrite <- Array_slice0_map. f_equal.
  rewrite (map_ext _ _ Hf), <- map_map.
  apply Array_sort_map. intros x y.
  unfold StdioServer.by_hit_weighted_desc, by_weighted_desc.
  now rewrite !Hw.
Qed.

(** ** Counting the entries that match or beat a score *)






(** ** Rounding error of the binary64 operations

    [sqrt], [*] and [/] round faithfully: the result is one of the two
    binary64 neighbours of the exact value.  From the specification of the
    operations on [spec_float]. *)

Section Binary64Rounding.
Local Open Scope Z_scope.

(** The number of digits of a positive number is fixed by the powers of
    two around it. *)
Lemma digits2_pos_unique q n :
  2 ^ (n - 1) <= Zpos q < 2 ^ n -> Zpos (digits2_pos q) = n.
Proof.
  intros [Hlo Hhi].
  pose proof (digits2_pos_bounds q) as [Dlo Dhi].
  assert (Hn : 0 < n).
  { destruct (Z.lt_ge_cases 0 n) as [H | H]; [exact H|].
    destruct (Z.eq_dec n 0) as [-> | Hne].
    - cbn in Hhi. lia.
    - rewrite (Z.pow_neg_r 2 n) in Hhi by lia. lia. }
  destruct (Z.lt_trichotomy (Zpos (digits2_pos q)) n) as [H | [H | H]];
    [exfalso | exact H | exfalso].
  - assert (2 ^ Zpos (digits2_pos q) <= 2 ^ (n - 1))
      by (apply Z.pow_le_mono_r; lia).
    lia.
  - assert (2 ^ n <= 2 ^ (Zpos (digits2_pos q) - 1))
      by (apply Z.pow_le_mono_r; lia).
    lia.
Qed.

Lemma round_nearest_even_range m l :
  m <= round_nearest_even m l <= m + 1.
Proof.
  unfold round_nearest_even. destruct l as [|[]]; try lia.
  destruct (Z.even m); lia.
Qed.

(** The first shift of [binary_round_aux] on a significand of at least 53
    digits whose rounded value is normal: the top 53 digits remain. *)
Lemma shr_fexp_normal p e l :
  53 <= Zpos (digits2_pos p) ->
  -1021 <= Zpos (digits2_pos p) + e ->
  let k := Zpos (digits2_pos p) - 53 in
  shr_m (fst (shr_fexp prec emax (Zpos p) e l)) = Zpos p / 2 ^ k
  /\ snd (shr_fexp prec emax (Zpos p) e l) = e + k
  /\ 2 ^ 52 <= Zpos p / 2 ^ k < 2 ^ 53.
Proof.
  intros Hd He k.
  pose proof (digits2_pos_bounds p) as [Dlo Dhi].
  assert (Hk : 0 <= k) by (unfold k; lia).
  assert (Hfexp : fexp prec emax (Zdigits2 (Zpos p) + e) - e = k).
  { unfold fexp, SpecFloat.emin, prec, emax, k. cbn [Zdigits2]. lia. }
  assert (Hpow : 2 ^ Zpos (digits2_pos p) = 2 ^ 53 * 2 ^ k).
  { rewrite <- Z.pow_add_r by lia. f_equal. unfold k. lia. }
  assert (Hpow' : 2 ^ (Zpos (digits2_pos p) - 1) = 2 ^ 52 * 2 ^ k).
  { rewrite <- Z.pow_add_r by lia. f_equal. unfold k. lia. }
  assert (H2k : 0 < 2 ^ k) by (apply Z.pow_pos_nonneg; lia).
  assert (Hrange : 2 ^ 52 <= Zpos p / 2 ^ k < 2 ^ 53).
  { split.
    - apply Z.div_le_lower_bound; [exact H2k|]. rewrite Z.mul_comm. lia.
    - apply Z.div_lt_upper_bound; [exact H2k|]. rewrite Z.mul_comm. lia. }
  unfold shr_fexp. rewrite Hfexp. unfold shr.
  destruct k as [|k'|k'] eqn:Ek; cbn [fst snd].
  - rewrite shr_record_of_loc_m. change (2 ^ 0) with 1. rewrite Z.div_1_r.
    repeat split; lia.
  - rewrite iter_shr_1_m by (rewrite shr_record_of_loc_m; lia).
    rewrite shr_record_of_loc_m. repeat split; lia.
  - lia.
Qed.

(** Rounding is faithful.  A significand [p] of at least 53 digits, at an
    exponent [e] for which the result is normal and finite, is rounded to
    [M * 2 ^ E] with [M] of 53 digits, one of the two neighbours of
    [p * 2 ^ e] in that format, whatever the location says of the digits
    beyond [p]. *)
Lemma binary_round_aux_faithful s p e l :
  53 <= Zpos (digits2_pos p) ->
  -1021 <= Zpos (digits2_pos p) + e ->
  Zpos (digits2_pos p) + e <= 1023 ->
  exists M E,
    binary_round_aux prec emax s (Zpos p) e l = S754_finite s M E
    /\ 2 ^ 52 <= Zpos M < 2 ^ 53
    /\ Zpos (digits2_pos p) - 53 <= E - e <= Zpos (digits2_pos p) - 52
    /\ (Zpos M - 1) * 2 ^ (E - e) <= Zpos p
    /\ Zpos p + 1 <= (Zpos M + 1) * 2 ^ (E - e).
Proof.
  intros Hd He Hmax.
  destruct (shr_fexp_normal p e l Hd He) as [Hm [Hse Hrange]].
  set (k := Zpos (digits2_pos p) - 53) in *.
  assert (Hk : 0 <= k) by (unfold k; lia).
  assert (H2k : 0 < 2 ^ k) by (apply Z.pow_pos_nonneg; lia).
  unfold binary_round_aux.
  destruct (shr_fexp prec emax (Zpos p) e l) as [mrs' e'].
  cbn [fst snd] in Hm, Hse. subst e'.
  pose proof (round_nearest_even_range (shr_m mrs') (loc_of_shr_record mrs'))
    as Hr.
  destruct (round_nearest_even (shr_m mrs') (loc_of_shr_record mrs'))
    as [|r|r] eqn:Er; rewrite Hm in Hr; [lia| |lia].
  pose proof (Z.mul_div_le (Zpos p) (2 ^ k) H2k) as Hfl.
  pose proof (Z.mul_succ_div_gt (Zpos p) (2 ^ k) H2k) as Hfu.
  set (m1 := Zpos p / 2 ^ k) in *.
  destruct (Z.lt_ge_cases (Zpos r) (2 ^ 53)) as [Hlt | Hge].
  - (* no carry *)
    assert (Hdr : Zpos (digits2_pos r) = 53)
      by (apply digits2_pos_unique; change (53 - 1) with 52; lia).
    destruct (shr_fexp_normal r (e + k) loc_Exact) as [Hm2 [He2 _]];
      [lia | lia |].
    rewrite Hdr in Hm2, He2. change (53 - 53) with 0 in Hm2, He2.
    change (2 ^ 0) with 1 in Hm2. rewrite Z.div_1_r in Hm2.
    destruct (shr_fexp prec emax (Zpos r) (e + k) loc_Exact) as [mrs'' e''].
    cbn [fst snd] in Hm2, He2. rewrite Hm2. subst e''.
    assert (Hle : (e + k + 0 <=? emax - prec) = true)
      by (apply Z.leb_le; unfold emax, prec, k; lia).
    rewrite Hle. exists r, (e + k + 0).
    replace (e + k + 0 - e) with k by lia.
    split; [reflexivity|]. split; [lia|]. split; [unfold k; lia|].
    split; nia.
  - (* the carry: r = 2 ^ 53 *)
    assert (Hr53 : Zpos r = 2 ^ 53) by lia.
    assert (Hdr : Zpos (digits2_pos r) = 54)
      by (apply digits2_pos_unique; rewrite Hr53;
          change (54 - 1) with 53; split; [lia | reflexivity]).
    destruct (shr_fexp_normal r (e + k) loc_Exact) as [Hm2 [He2 _]];
      [lia | lia |].
    rewrite Hdr in Hm2, He2. change (54 - 53) with 1 in Hm2, He2.
    destruct (shr_fexp prec emax (Zpos r) (e + k) loc_Exact) as [mrs'' e''].
    cbn [fst snd] in Hm2, He2.
    rewrite Hr53 in Hm2. change (2 ^ 53 / 2 ^ 1) with (2 ^ 52) in Hm2.
    rewrite Hm2. subst e''.
    change (2 ^ 52) with (Zpos 4503599627370496).
    assert (Hle : (e + k + 1 <=? emax - prec) = true)
      by (apply Z.leb_le; unfold emax, prec, k; lia).
    rewrite Hle. exists 4503599627370496%positive, (e + k + 1).
    replace (e + k + 1 - e) with (k + 1) by lia.
    split; [reflexivity|]. split; [cbn; lia|]. split; [unfold k; lia|].
    rewrite Z.pow_add_r by lia. change (2 ^ 1) with 2.
    change (2 ^ 53) with 9007199254740992 in *.
    split; nia.
Qed.

End Binary64Rounding.

Section Binary64Values.
Local Open Scope R_scope.

Lemma bpow_pos e : 0 < powerRZ 2 e.
Proof. apply powerRZ_lt. lra. Qed.

Lemma bpow_add a b : powerRZ 2 (a + b) = powerRZ 2 a * powerRZ 2 b.
Proof. apply powerRZ_add. lra. Qed.

Lemma IZR_pow2 k : (0 <= k)%Z -> IZR (2 ^ k) = powerRZ 2 k.
Proof.
  intros H. destruct k as [|p|p]; [reflexivity | | lia].
  change (2 ^ Zpos p)%Z with (Z.pow_pos 2 p). apply Zpower_pos_powerRZ.
Qed.

Lemma F2R_mult m1 e1 m2 e2 :
  F2R m1 e1 * F2R m2 e2 = F2R (m1 * m2) (e1 + e2).
Proof. unfold F2R. rewrite mult_IZR, bpow_add. ring. Qed.

Lemma F2R_le m1 m2 e : (m1 <= m2)%Z -> F2R m1 e <= F2R m2 e.
Proof.
  intros H. unfold F2R. apply Rmult_le_compat_r.
  - apply Rlt_le, bpow_pos.
  - now apply IZR_le.
Qed.

Lemma F2R_shift m k e : (0 <= k)%Z -> F2R (m * 2 ^ k) e = F2R m (k + e).
Proof.
  intros H. unfold F2R. rewrite mult_IZR, IZR_pow2, bpow_add by exact H.
  ring.
Qed.

Lemma F2R_pos m e : (0 < m)%Z -> 0 < F2R m e.
Proof.
  intros H. unfold F2R. apply Rmult_lt_0_compat.
  - now apply IZR_lt.
  - apply bpow_pos.
Qed.

Lemma eta52_normal M : (2 ^ 52 <= M)%Z -> 1 <= IZR M * eta52.
Proof.
  intros H. apply IZR_le in H. change (2 ^ 52)%Z with 4503599627370496%Z in H.
  unfold eta52. lra.
Qed.

(** Faithful rounding, in values: the rounded number is within [eta52] of
    everything between [p * 2 ^ e] and [(p + 1) * 2 ^ e], relative to
    itself. *)
Lemma binary_round_aux_rel s p e l :
  (53 <= Zpos (digits2_pos p))%Z ->
  (-1021 <= Zpos (digits2_pos p) + e)%Z ->
  (Zpos (digits2_pos p) + e <= 1023)%Z ->
  exists M E,
    binary_round_aux prec emax s (Zpos p) e l = S754_finite s M E
    /\ (2 ^ 52 <= Zpos M < 2 ^ 53)%Z
    /\ (Zpos (digits2_pos p) - 53 <= E - e <= Zpos (digits2_pos p) - 52)%Z
    /\ F2R (Zpos M) E * (1 - eta52) <= F2R (Zpos p) e
    /\ F2R (Zpos p + 1) e <= F2R (Zpos M) E * (1 + eta52).
Proof.
  intros Hd He Hmax.
  destruct (binary_round_aux_faithful s p e l Hd He Hmax)
    as [M [E [Hr [HM [HE [Hlo Hhi]]]]]].
  exists M, E. split; [exact Hr|]. split; [exact HM|]. split; [exact HE|].
  assert (HK : (0 <= E - e)%Z) by lia.
  pose proof (eta52_normal (Zpos M) (proj1 HM)) as Heta.
  pose proof (bpow_pos E) as HbE.
  assert (Hs : forall x, F2R (x * 2 ^ (E - e)) e = IZR x * powerRZ 2 E).
  { intros x. rewrite F2R_shift by exact HK.
    replace (E - e + e)%Z with E by lia. reflexivity. }
  split.
  - apply (F2R_le _ _ e) in Hlo. rewrite Hs in Hlo.
    rewrite minus_IZR in Hlo.
    eapply Rle_trans; [|exact Hlo]. unfold F2R. nra.
  - apply (F2R_le _ _ e) in Hhi. rewrite Hs in Hhi.
    rewrite plus_IZR in Hhi.
    eapply Rle_trans; [exact Hhi|]. unfold F2R. nra.
Qed.

End Binary64Values.

Section Binary64Steps.

Lemma digits2_pos_range q a b :
  (0 <= a)%Z -> (2 ^ a <= Zpos q < 2 ^ b)%Z ->
  (a < Zpos (digits2_pos q) <= b)%Z.
Proof.
  intros Ha [Hlo Hhi].
  pose proof (digits2_pos_bounds q) as [Dlo Dhi].
  split.
  - destruct (Z.lt_ge_cases a (Zpos (digits2_pos q))) as [H | H]; [exact H|].
    assert (2 ^ Zpos (digits2_pos q) <= 2 ^ a)%Z
      by (apply Z.pow_le_mono_r; lia).
    lia.
  - destruct (Z.le_gt_cases (Zpos (digits2_pos q)) b) as [H | H]; [exact H|].
    assert (2 ^ b <= 2 ^ (Zpos (digits2_pos q) - 1))%Z
      by (apply Z.pow_le_mono_r; lia).
    lia.
Qed.

(** The square of a normal number [N], rounded: within [eta52] of [N * N],
    relative to itself. *)
Lemma SFmul_self_rel mn en :
  (2 ^ 52 <= Zpos mn < 2 ^ 53)%Z ->
  (-1126 <= 2 * en)%Z -> (2 * en <= 917)%Z ->
  exists mp ep,
    SFmul prec emax (S754_finite false mn en) (S754_finite false mn en)
    = S754_finite false mp ep
    /\ (2 ^ 52 <= Zpos mp < 2 ^ 53)%Z
    /\ (2 * en + 52 <= ep <= 2 * en + 54)%Z
    /\ (F2R (Zpos mp) ep * (1 - eta52) <= F2R (Zpos mn) en * F2R (Zpos mn) en
        <= F2R (Zpos mp) ep * (1 + eta52))%R.
Proof.
  intros Hmn Hlo Hhi.
  assert (Hsq : (2 ^ 104 <= Zpos (mn * mn) < 2 ^ 106)%Z).
  { rewrite Pos2Z.inj_mul.
    change (2 ^ 104)%Z with (2 ^ 52 * 2 ^ 52)%Z.
    change (2 ^ 106)%Z with (2 ^ 53 * 2 ^ 53)%Z.
    change (2 ^ 52)%Z with 4503599627370496%Z in *.
    change (2 ^ 53)%Z with 9007199254740992%Z in *. nia. }
  pose proof (digits2_pos_range (mn * mn) 104 106 ltac:(lia) Hsq) as Hdg.
  destruct (binary_round_aux_rel false (mn * mn) (en + en) loc_Exact)
    as [mp [ep [Hr [Hmp [Hep [Hrlo Hrhi]]]]]]; [lia | lia | lia |].
  exists mp, ep. cbn [SFmul xorb]. split; [exact Hr|].
  split; [exact Hmp|]. split; [lia|].
  rewrite F2R_mult, <- Pos2Z.inj_mul. split; [exact Hrlo|].
  eapply Rle_trans; [|exact Hrhi]. apply F2R_le. lia.
Qed.

(** The quotient of two normal numbers [D] and [P], rounded: within
    [eta52] of [D / P], relative to itself. *)
Lemma SFdiv_rel md ed mp ep :
  (2 ^ 52 <= Zpos md < 2 ^ 53)%Z -> (2 ^ 52 <= Zpos mp < 2 ^ 53)%Z ->
  (-1021 <= ed - ep <= 1022)%Z ->
  exists M E,
    SFdiv prec emax (S754_finite false md ed) (S754_finite false mp ep)
    = S754_finite false M E
    /\ (2 ^ 52 <= Zpos M < 2 ^ 53)%Z
    /\ (F2R (Zpos M) E * (1 - eta52) * F2R (Zpos mp) ep <= F2R (Zpos md) ed
        <= F2R (Zpos M) E * (1 + eta52) * F2R (Zpos mp) ep)%R.
Proof.
  intros Hmd Hmp He.
  assert (Hdd : Zpos (digits2_pos md) = 53%Z)
    by (apply digits2_pos_unique; exact Hmd).
  assert (Hdp : Zpos (digits2_pos mp) = 53%Z)
    by (apply digits2_pos_unique; exact Hmp).
  cbn [SFdiv xorb]. unfold SFdiv_core_binary. cbn [Zdigits2].
  rewrite Hdd, Hdp.
  assert (He' : Z.min (fexp prec emax (53 + ed - (53 + ep))) (ed - ep)
                = (ed - ep - 53)%Z).
  { unfold fexp, SpecFloat.emin, prec, emax. lia. }
  rewrite He'.
  replace (ed - ep - (ed - ep - 53))%Z with 53%Z by lia.
  rewrite Z.shiftl_mul_pow2 by lia.
  pose proof (Z.div_eucl_eq (Zpos md * 2 ^ 53) (Zpos mp) ltac:(lia)) as Hdiv.
  pose proof (Z.mod_pos_bound (Zpos md * 2 ^ 53) (Zpos mp) ltac:(lia)) as Hmod.
  unfold Z.modulo in Hmod.
  destruct (Z.div_eucl (Zpos md * 2 ^ 53) (Zpos mp)) as [qz r].
  assert (Hqz : (2 ^ 52 <= qz < 2 ^ 54)%Z).
  { change (2 ^ 52)%Z with 4503599627370496%Z in *.
    change (2 ^ 53)%Z with 9007199254740992%Z in *.
    change (2 ^ 54)%Z with 18014398509481984%Z. nia. }
  destruct qz as [|pq|pq]; [cbn in Hqz; lia | | lia].
  pose proof (digits2_pos_range pq 52 54 ltac:(lia) Hqz) as Hdg.
  destruct (binary_round_aux_rel false pq (ed - ep - 53)
              (new_location (Zpos mp) r))
    as [M [E [Hr [HM [HE [Hrlo Hrhi]]]]]]; [lia | lia | lia |].
  exists M, E. split; [exact Hr|]. split; [exact HM|].
  pose proof (F2R_pos (Zpos mp) ep ltac:(lia)) as HP.
  assert (Hval : forall x,
    (F2R x (ed - ep - 53) * F2R (Zpos mp) ep
     = IZR (x * Zpos mp) * powerRZ 2 (ed - 53))%R).
  { intros x. rewrite F2R_mult. unfold F2R. do 2 f_equal. lia. }
  assert (HD : (F2R (Zpos md) ed
                = IZR (Zpos md * 2 ^ 53) * powerRZ 2 (ed - 53))%R).
  { assert (H : powerRZ 2 ed = (powerRZ 2 53 * powerRZ 2 (ed - 53))%R)
      by (rewrite <- bpow_add; f_equal; lia).
    unfold F2R. rewrite mult_IZR, IZR_pow2, H by lia. ring. }
  pose proof (bpow_pos (ed - 53)) as Hb.
  split.
  - apply Rle_trans with (F2R (Zpos pq) (ed - ep - 53) * F2R (Zpos mp) ep)%R.
    + apply Rmult_le_compat_r; [lra | exact Hrlo].
    + rewrite Hval, HD. apply Rmult_le_compat_r; [lra|]. apply IZR_le. lia.
  - apply Rle_trans
      with (F2R (Zpos pq + 1) (ed - ep - 53) * F2R (Zpos mp) ep)%R.
    + rewrite Hval, HD. apply Rmult_le_compat_r; [lra|]. apply IZR_le. lia.
    + apply Rmult_le_compat_r; [lra | exact Hrhi].
Qed.

End Binary64Steps.

Section Binary64Sqrt.

Lemma eta52_range : (0 < eta52 < 1)%R.
Proof. unfold eta52. lra. Qed.

(** The square root of a normal number [D], rounded to [N]: [D] lies
    between the squares of [N * (1 - eta52)] and [N * (1 + eta52)]. *)
Lemma SFsqrt_rel md ed :
  (2 ^ 52 <= Zpos md < 2 ^ 53)%Z -> (-1074 <= ed <= 971)%Z ->
  exists mn en,
    SFsqrt prec emax (S754_finite false md ed) = S754_finite false mn en
    /\ (2 ^ 52 <= Zpos mn < 2 ^ 53)%Z
    /\ (ed - 53 <= 2 * en <= ed - 50)%Z
    /\ ((F2R (Zpos mn) en * (1 - eta52)) * (F2R (Zpos mn) en * (1 - eta52))
        <= F2R (Zpos md) ed
        <= (F2R (Zpos mn) en * (1 + eta52))
           * (F2R (Zpos mn) en * (1 + eta52)))%R.
Proof.
  intros Hmd He.
  assert (Hdd : Zpos (digits2_pos md) = 53%Z)
    by (apply digits2_pos_unique; exact Hmd).
  pose proof (Z.div_mod ed 2 ltac:(lia)) as Hdm.
  pose proof (Z.mod_pos_bound ed 2 ltac:(lia)) as Hb.
  set (h := (ed / 2)%Z) in *. set (b := (ed mod 2)%Z) in *.
  cbn [SFsqrt]. unfold SFsqrt_core_binary. cbn [Zdigits2].
  rewrite Hdd, !Z.div2_div. fold h.
  replace ((53 + ed + 1) / 2)%Z with (h + 27)%Z
    by (apply (Z.div_unique _ _ _ b); lia).
  assert (He' : Z.min (fexp prec emax (h + 27)) h = (h - 26)%Z).
  { unfold fexp, SpecFloat.emin, prec, emax. lia. }
  rewrite He'.
  assert (Hcore : exists s,
    (s = 52 \/ s = 53)%Z /\ (ed = 2 * (h - 26) + s)%Z
    /\ match (ed - 2 * (h - 26))%Z with
       | Zpos _ => Z.shiftl (Zpos md) (ed - 2 * (h - 26))
       | Z0 => Zpos md
       | Zneg _ => Z0
       end = (Zpos md * 2 ^ s)%Z).
  { assert (Hbb : (b = 0 \/ b = 1)%Z) by lia.
    destruct Hbb as [Hb0 | Hb1].
    - exists 52%Z. split; [now left|]. split; [lia|].
      replace (ed - 2 * (h - 26))%Z with 52%Z by lia.
      now rewrite Z.shiftl_mul_pow2 by lia.
    - exists 53%Z. split; [now right|]. split; [lia|].
      replace (ed - 2 * (h - 26))%Z with 53%Z by lia.
      now rewrite Z.shiftl_mul_pow2 by lia. }
  destruct Hcore as [s [Hs [Hed Hm']]]. rewrite Hm'.
  assert (Hm'r : (2 ^ 104 <= Zpos md * 2 ^ s < 2 ^ 106)%Z).
  { change (2 ^ 52)%Z with 4503599627370496%Z in Hmd.
    change (2 ^ 53)%Z with 9007199254740992%Z in Hmd.
    destruct Hs as [-> | ->]; cbv - [Z.mul Z.le Z.lt]; lia. }
  pose proof (Z.sqrtrem_spec (Zpos md * 2 ^ s) ltac:(lia)) as Hsq.
  destruct (Z.sqrtrem (Zpos md * 2 ^ s)) as [qs r].
  destruct Hsq as [Hsq Hr].
  assert (Hqs : (2 ^ 52 <= qs < 2 ^ 53)%Z).
  { change (2 ^ 104)%Z with (4503599627370496 * 4503599627370496)%Z in Hm'r.
    change (2 ^ 106)%Z with (9007199254740992 * 9007199254740992)%Z in Hm'r.
    change (2 ^ 52)%Z with 4503599627370496%Z.
    change (2 ^ 53)%Z with 9007199254740992%Z. nia. }
  destruct qs as [|pq|pq]; [cbn in Hqs; lia | | lia].
  assert (Hdq : Zpos (digits2_pos pq) = 53%Z)
    by (apply digits2_pos_unique; exact Hqs).
  set (l := if (r =? 0)%Z then loc_Exact
            else loc_Inexact (if (r <=? Zpos pq)%Z then Lt else Gt)).
  destruct (binary_round_aux_rel false pq (h - 26) l)
    as [mn [en [Hrnd [Hmn [Hen [Hrlo Hrhi]]]]]]; [lia | lia | lia |].
  exists mn, en. split; [exact Hrnd|]. split; [exact Hmn|]. split; [lia|].
  pose proof (F2R_pos (Zpos mn) en ltac:(lia)) as HN.
  pose proof eta52_range as Heta.
  assert (HD : (F2R (Zpos md) ed
                = IZR (Zpos md * 2 ^ s) * powerRZ 2 (2 * (h - 26)))%R).
  { assert (H : powerRZ 2 ed = (powerRZ 2 s * powerRZ 2 (2 * (h - 26)))%R)
      by (rewrite <- bpow_add; f_equal; lia).
    unfold F2R. rewrite mult_IZR, IZR_pow2, H by lia. ring. }
  assert (Hsqv : forall x,
    (F2R x (h - 26) * F2R x (h - 26)
     = IZR (x * x) * powerRZ 2 (2 * (h - 26)))%R).
  { intros x. rewrite F2R_mult. unfold F2R. do 2 f_equal. lia. }
  pose proof (bpow_pos (2 * (h - 26))) as Hbp.
  pose proof (F2R_pos (Zpos pq) (h - 26) ltac:(lia)) as Hq0.
  split.
  - apply Rle_trans with (F2R (Zpos pq) (h - 26) * F2R (Zpos pq) (h - 26))%R.
    + apply Rmult_le_compat; nra.
    + rewrite Hsqv, HD. apply Rmult_le_compat_r; [lra|]. apply IZR_le. lia.
  - apply Rle_trans
      with (F2R (Zpos pq + 1) (h - 26) * F2R (Zpos pq + 1) (h - 26))%R.
    + rewrite Hsqv, HD. apply Rmult_le_compat_r; [lra|]. apply IZR_le. nia.
    + pose proof (F2R_pos (Zpos pq + 1) (h - 26) ltac:(lia)) as Hq1.
      apply Rmult_le_compat; lra.
Qed.

End Binary64Sqrt.

Section SelfSimilarity.

Lemma bpow_le a b : (a <= b)%Z -> (powerRZ 2 a <= powerRZ 2 b)%R.
Proof.
  intros H. replace b with (a + (b - a))%Z by lia.
  rewrite bpow_add, <- (IZR_pow2 (b - a)) by lia.
  pose proof (bpow_pos a) as Ha.
  assert (Hk : (1 <= IZR (2 ^ (b - a)))%R).
  { apply IZR_le. pose proof (Z.pow_pos_nonneg 2 (b - a)). lia. }
  nra.
Qed.

(** The quotient [d / (sqrt d * sqrt d)] in binary64, for a normal [d]
    away from the ends of the range: a normal number [Q] with
    [(1 - eta52)^3 <= Q * (1 + eta52)] and
    [Q * (1 - eta52) <= (1 + eta52)^3]. *)
Lemma SF_self_quotient md ed :
  (2 ^ 52 <= Zpos md < 2 ^ 53)%Z -> (-1073 <= ed <= 967)%Z ->
  exists mn en M E,
    SFsqrt prec emax (S754_finite false md ed) = S754_finite false mn en
    /\ SFdiv prec emax (S754_finite false md ed)
         (SFmul prec emax (S754_finite false mn en)
            (S754_finite false mn en))
       = S754_finite false M E
    /\ (2 ^ 52 <= Zpos M < 2 ^ 53)%Z
    /\ ((1 - eta52) * (1 - eta52) * (1 - eta52)
        <= F2R (Zpos M) E * (1 + eta52))%R
    /\ (F2R (Zpos M) E * (1 - eta52)
        <= (1 + eta52) * (1 + eta52) * (1 + eta52))%R.
Proof.
  intros Hmd He.
  destruct (SFsqrt_rel md ed Hmd ltac:(lia))
    as [mn [en [Hsqrt [Hmn [Hen [HSlo HShi]]]]]].
  destruct (SFmul_self_rel mn en Hmn ltac:(lia) ltac:(lia))
    as [mp [ep [Hmul [Hmp [Hep [HMlo HMhi]]]]]].
  destruct (SFdiv_rel md ed mp ep Hmd Hmp ltac:(lia))
    as [M [E [Hdiv [HM [HVlo HVhi]]]]].
  exists mn, en, M, E. split; [exact Hsqrt|].
  rewrite Hmul. split; [exact Hdiv|]. split; [exact HM|].
  pose proof eta52_range as Heta.
  pose proof (F2R_pos (Zpos mp) ep ltac:(lia)) as HP.
  pose proof (F2R_pos (Zpos mn) en ltac:(lia)) as HN.
  pose proof (F2R_pos (Zpos M) E ltac:(lia)) as HQ.
  set (D := F2R (Zpos md) ed) in *. set (N := F2R (Zpos mn) en) in *.
  set (P := F2R (Zpos mp) ep) in *. set (Q := F2R (Zpos M) E) in *.
  set (u := eta52) in *.
  assert (HNN : (0 < N * N)%R) by nra.
  set (NN := (N * N)%R) in *.
  assert (HSlo' : ((1 - u) * (1 - u) * NN <= D)%R)
    by (unfold NN; nra).
  assert (HShi' : (D <= (1 + u) * (1 + u) * NN)%R)
    by (unfold NN; nra).
  clearbody NN D P Q. clear HSlo HShi HN.
  split.
  - (* P (1-u)^3 <= NN (1-u)^2 <= D <= Q (1+u) P *)
    apply Rmult_le_reg_r with P; [exact HP|].
    apply Rle_trans with ((1 - u) * (1 - u) * NN)%R.
    + assert (H : (0 <= (1 - u) * (1 - u))%R) by nra.
      replace ((1 - u) * (1 - u) * (1 - u) * P)%R
        with ((1 - u) * (1 - u) * (P * (1 - u)))%R by ring.
      apply Rmult_le_compat_l; [exact H | exact HMlo].
    + lra.
  - apply Rmult_le_reg_r with P; [exact HP|].
    apply Rle_trans with ((1 + u) * (1 + u) * NN)%R.
    + lra.
    + assert (H : (0 <= (1 + u) * (1 + u))%R) by nra.
      replace ((1 + u) * (1 + u) * (1 + u) * P)%R
        with ((1 + u) * (1 + u) * (P * (1 + u)))%R by ring.
      apply Rmult_le_compat_l; [exact H | exact HMhi].
Qed.

(** A normal number within those bounds is between [1 - 2^-50] and
    [1 + 2^-50]. *)
Lemma near_one_cases M E :
  (2 ^ 52 <= Zpos M < 2 ^ 53)%Z ->
  ((1 - eta52) * (1 - eta52) * (1 - eta52)
   <= F2R (Zpos M) E * (1 + eta52))%R ->
  (F2R (Zpos M) E * (1 - eta52)
   <= (1 + eta52) * (1 + eta52) * (1 + eta52))%R ->
  (E = -53 /\ 2 ^ 53 - 8 <= Zpos M)%Z \/ (E = -52 /\ Zpos M <= 2 ^ 52 + 4)%Z.
Proof.
  intros HM Hlo Hhi.
  assert (HMlo : (4503599627370496 <= IZR (Zpos M))%R)
    by (apply (IZR_le (2 ^ 52)); lia).
  assert (HMhi : (IZR (Zpos M) < 9007199254740992)%R)
    by (apply (IZR_lt _ (2 ^ 53)); lia).
  pose proof (bpow_pos E) as HbE.
  unfold F2R, eta52 in Hlo, Hhi.
  destruct (Z.lt_trichotomy E (-53)) as [H | [H | H]].
  - (* too small *)
    exfalso.
    assert (Hb : (powerRZ 2 E <= powerRZ 2 (-54))%R) by (apply bpow_le; lia).
    change (powerRZ 2 (-54)) with (/ (2 ^ 54))%R in Hb.
    assert (Hq : (IZR (Zpos M) * powerRZ 2 E <= / 2)%R) by nra.
    nra.
  - left. split; [exact H|]. subst E.
    change (powerRZ 2 (-53)) with (/ (2 ^ 53))%R in Hlo.
    apply le_IZR. rewrite minus_IZR.
    change (IZR (2 ^ 53)) with 9007199254740992%R. lra.
  - destruct (Z.eq_dec E (-52)) as [-> | Hne].
    + right. split; [reflexivity|].
      change (powerRZ 2 (-52)) with (/ (2 ^ 52))%R in Hhi.
      apply Z.lt_succ_r. apply lt_IZR. rewrite succ_IZR, plus_IZR.
      change (IZR (2 ^ 52)) with 4503599627370496%R. lra.
    + exfalso.
      assert (Hb : (powerRZ 2 (-51) <= powerRZ 2 E)%R)
        by (apply bpow_le; lia).
      change (powerRZ 2 (-51)) with (/ (2 ^ 51))%R in Hb.
      assert (Hq : (2 <= IZR (Zpos M) * powerRZ 2 E)%R) by nra.
      nra.
Qed.

End SelfSimilarity.

Section SelfSimilarityFloat.

(** A binary64 number between [2^-1000] and [2^1000] is positive and
    normal. *)
Lemma in_range_normal (d : float) :
  (0x1p-1000 <=? d)%float = true -> (d <=? 0x1p+1000)%float = true ->
  exists md ed,
    Prim2SF d = S754_finite false md ed
    /\ (2 ^ 52 <= Zpos md < 2 ^ 53)%Z /\ (-1052 <= ed <= 948)%Z.
Proof.
  rewrite !leb_spec.
  replace (Prim2SF 0x1p-1000%float)
    with (S754_finite false 4503599627370496 (-1052))
    by (vm_compute; reflexivity).
  replace (Prim2SF 0x1p+1000%float)
    with (S754_finite false 4503599627370496 948)
    by (vm_compute; reflexivity).
  pose proof (Prim2SF_valid d) as Hv.
  destruct (Prim2SF d) as [s|s| |s m e]; intros H1 H2;
    try (destruct s; discriminate); try discriminate.
  destruct s; [discriminate|].
  unfold SFleb, SFcompare in H1, H2.
  assert (He : (-1052 <= e <= 948)%Z).
  { split.
    - destruct (Z.compare_spec (-1052) e); [lia | lia | discriminate].
    - destruct (Z.compare_spec e 948); [lia | lia | discriminate]. }
  exists m, e. split; [reflexivity|]. split; [|exact He].
  cbn [valid_binary] in Hv. apply bounded_canonical in Hv.
  pose proof (digits2_pos_bounds m) as Hb.
  replace (Zpos (digits2_pos m)) with 53%Z in Hb by lia.
  exact Hb.
Qed.

(** The similarity of a vector with itself, when the computed [dot(v, v)]
    is between [2^-1000] and [2^1000]: within [2^-50] of 1. *)
Lemma cosineSim_self_near_one v :
  (0x1p-1000 <=? dot v v)%float = true ->
  (dot v v <=? 0x1p+1000)%float = true ->
  (1 - 0x1p-50 <=? cosineSim v v)%float = true
  /\ (cosineSim v v <=? 1 + 0x1p-50)%float = true.
Proof.
  intros H1 H2.
  destruct (in_range_normal _ H1 H2) as [md [ed [Hd [Hmd Hed]]]].
  destruct (SF_self_quotient md ed Hmd ltac:(lia))
    as [mn [en [M [E [Hsqrt [Hdiv [HM [Hlo Hhi]]]]]]]].
  assert (Hn : Prim2SF (norm v) = S754_finite false mn en).
  { unfold norm. now rewrite sqrt_spec, Hd. }
  assert (Hz : (norm v =? 0)%float = false).
  { rewrite eqb_spec, Hn. reflexivity. }
  assert (Hq : Prim2SF (cosineSim v v) = S754_finite false M E).
  { unfold cosineSim. rewrite Hz. cbn [orb].
    now rewrite div_spec, mul_spec, Hn, Hd. }
  rewrite !leb_spec, Hq.
  replace (Prim2SF (1 - 0x1p-50)%float)
    with (S754_finite false 9007199254740984 (-53))
    by (vm_compute; reflexivity).
  replace (Prim2SF (1 + 0x1p-50)%float)
    with (S754_finite false 4503599627370500 (-52))
    by (vm_compute; reflexivity).
  unfold SFleb, SFcompare.
  destruct (near_one_cases M E HM Hlo Hhi) as [[-> HM'] | [-> HM']].
  - change (Z.compare (-53) (-53)) with Eq.
    change (Z.compare (-53) (-52)) with Lt. cbv iota.
    split; [|reflexivity].
    rewrite Pos.compare_cont_spec.
    destruct (Pos.compare_spec 9007199254740984 M) as [Hc | Hc | Hc];
      try reflexivity.
    apply Pos2Z.pos_lt_pos in Hc. lia.
  - change (Z.compare (-52) (-52)) with Eq.
    change (Z.compare (-53) (-52)) with Lt. cbv iota.
    split; [reflexivity|].
    rewrite Pos.compare_cont_spec.
    destruct (Pos.compare_spec M 4503599627370500) as [Hc | Hc | Hc];
      try reflexivity.
    apply Pos2Z.pos_lt_pos in Hc. lia.
Qed.

End SelfSimilarityFloat.

(** When the squares sum to zero (all of them underflow), the norm is
    zero and the similarity is 0. *)
Lemma cosineSim_self_zero_dot v :
  (dot v v =? 0)%float = true -> cosineSim v v = 0%float.
Proof.
  intros H. apply cosineSim_zero_norm. left.
  rewrite eqb_spec in *. unfold norm. rewrite sqrt_spec.
  change (Prim2SF 0%float) with (S754_zero false) in *.
  destruct (Prim2SF (dot v v)) as [s|s| |s m e];
    try discriminate; try (destruct s; discriminate).
  reflexivity.
Qed.

(** When the squares sum to infinity (overflow), the similarity is
    [NaN]. *)
Lemma cosineSim_self_overflow v :
  dot v v = infinity -> is_nan (cosineSim v v) = true.
Proof.
  intros H.
  assert (Hn : Prim2SF (norm v) = S754_infinity false).
  { unfold norm. rewrite sqrt_spec, H. reflexivity. }
  assert (Hz : (norm v =? 0)%float = false).
  { rewrite eqb_spec, Hn. reflexivity. }
  rewrite is_nan_spec. unfold cosineSim. rewrite Hz. cbn [orb].
  rewrite div_spec, mul_spec, Hn, H. reflexivity.
Qed.

(** * The properties of the specification *)

(** C1, counterexample.  A fetch whose id, after normalisation, is a
    non-empty string that no chunk of the index has: the handler of
    [src/mcp_remote.ts] returns the not-found record, but in a result that is
    flagged [isError: true]. *)
Lemma fetch_miss_flagged_counterexample :
  trim (normalizeFetchArgs (JObj [(lit "id", JStr (lit "docs/none.md#x#0"))]))
  = lit "docs/none.md#x#0"
  /\ find_chunk (index_api_faq [1; 0]%float) (lit "docs/none.md#x#0") = None
  /\ run (fetch sample_base (index_api_faq [1; 0]%float)
            (JObj [(lit "id", JStr (lit "docs/none.md#x#0"))]))
     = (Returned
          {| isError := true;
             content := not_found_doc sample_base (lit "docs/none.md#x#0") |},
        []).
Proof. repeat split; vm_compute; reflexivity. Qed.

(** C1, as amended.  For every fetch call whose normalised (trimmed) id is a
    non-empty string equal to the id of no chunk of the loaded index, the
    handler returns, without a provider call and without throwing, the
    structured not-found record
    [{id, title: "NOT_FOUND", text: "", url: DOC_BASE_URL,
      metadata: {error: "not_found"}}]; in [src/mcp_remote.ts] the result
    that carries it is flagged [isError: true], and only the earlier
    string-schema handlers return it unflagged; the record is not of the
    [{error, message}] shape of the tagged errors [invalid_id] and
    [fetch_failed]. *)
Theorem fetch_miss_not_found (base : jsstring) (index : IndexFile)
  (args : JsValue) :
  is_empty (trim (normalizeFetchArgs args)) = false ->
  (forall c, In c (chunks index) ->
             id c <> trim (normalizeFetchArgs args)) ->
  run (fetch base index args)
  = (Returned
       {| isError := true;
          content := not_found_doc base (trim (normalizeFetchArgs args)) |},
     [])
  /\ run (fetch_by_string base index (trim (normalizeFetchArgs args)))
     = (Returned
          {| isError := false;
             content := not_found_doc base (trim (normalizeFetchArgs args)) |},
        [])
  /\ (forall e m,
        not_found_doc base (trim (normalizeFetchArgs args))
        <> ErrorPayload e m).
Proof.
  intros Hne Hmiss. apply find_chunk_none in Hmiss.
  unfold run, fetch, fetch_by_string, try_catch.
  rewrite Hne, Hmiss. repeat split. intros e m. discriminate.
Qed.

(** C1, witness: the id [" nope "] against an index of two chunks. *)
Lemma fetch_miss_not_found_witness :
  is_empty (trim (normalizeFetchArgs (JStr (lit " nope ")))) = false
  /\ run (fetch sample_base (index_api_faq [1; 0]%float)
            (JStr (lit " nope ")))
     = (Returned
          {| isError := true;
             content := not_found_doc sample_base (lit "nope") |},
        [])
  /\ run (fetch_by_string sample_base (index_api_faq [1; 0]%float)
            (lit "nope"))
     = (Returned
          {| isError := false;
             content := not_found_doc sample_base (lit "nope") |},
        []).
Proof.
  assert (H1 : is_empty (trim (normalizeFetchArgs (JStr (lit " nope "))))
               = false) by reflexivity.
  assert (H2 : forall c,
             In c (chunks (index_api_faq [1; 0]%float)) ->
             id c <> trim (normalizeFetchArgs (JStr (lit " nope ")))).
  { intros c [<- | [<- | []]]; vm_compute; discriminate. }
  destruct (fetch_miss_not_found sample_base (index_api_faq [1; 0]%float)
              (JStr (lit " nope ")) H1 H2) as [Ha [Hb _]].
  split; [exact H1|]. split; [exact Ha | exact Hb].
Defined.

(** C2, counterexample.  A query that contains the retry keyword, a chunk
    under a heading that contains it (raw similarity 0.6) and a plain chunk
    (raw similarity 0.8), both of an unweighted source: with the heading
    weight the first chunk scores 0.81 and ranks first, as [scripts/server.ts]
    has it; [src/mcp_remote.ts] applies no heading weight, scores it 0.6 and
    ranks it last. *)
Lemma mcp_remote_ignores_heading_counterexample :
  map (fun r => id (chunk r))
    (Server.scored [1; 0]%float [chunk_retry; chunk_plain] Server.s_retry 8)
  = [id chunk_retry; id chunk_plain]
  /\ map (fun r => id (chunk r))
       (McpRemote.scored [1; 0]%float [chunk_retry; chunk_plain] 8)
     = [id chunk_plain; id chunk_retry]
  /\ map weighted
       (McpRemote.scored [1; 0]%float [chunk_retry; chunk_plain] 8)
     = [0.80000000000000004; 0.59999999999999998]%float
  /\ (cosineSim [1; 0]%float (embedding chunk_retry)
      * McpRemote.sourceWeight (source (meta chunk_retry))
      * Server.headingWeight (heading (meta chunk_retry)) Server.s_retry)%float
     = 0.81000000000000005%float.
Proof. repeat split; vm_compute; reflexivity. Qed.

(** C2, as amended.  For every query vector, chunk list, query string and
    [topK >= 0]: the ranker of [scripts/server.ts] computes for each chunk
    [raw = cosineSim(qEmb, chunk.embedding)] and
    [weighted = raw * sourceWeight(source) * headingWeight(heading, query)],
    while the ranker of [src/mcp_remote.ts] computes
    [weighted = raw * sourceWeight(source)] with no heading factor; each
    returns the first [topK] entries of an arrangement of all scored chunks
    that is descending by [weighted] when no weighted score is [NaN]. *)
Theorem ranker_pipeline (qEmb : list float) (chunks : list IndexedChunk)
  (query : jsstring) (topK : Z) :
  (0 <= topK)%Z ->
  (Forall
     (fun r =>
        In (chunk r) chunks
        /\ score r = cosineSim qEmb (embedding (chunk r))
        /\ weighted r
           = (score r * Server.sourceWeight (source (meta (chunk r)))
              * Server.headingWeight (heading (meta (chunk r))) query)%float)
     (Server.scored qEmb chunks query topK)
   /\ exists sorted,
       Permutation (map (Server.score_chunk qEmb query) chunks) sorted
       /\ (no_nan_weighted (map (Server.score_chunk qEmb query) chunks) ->
           descending sorted)
       /\ Server.scored qEmb chunks query topK
          = firstn (Z.to_nat topK) sorted)
  /\ (Forall
        (fun r =>
           In (chunk r) chunks
           /\ score r = cosineSim qEmb (embedding (chunk r))
           /\ weighted r
              = (score r
                 * McpRemote.sourceWeight (source (meta (chunk r))))%float)
        (McpRemote.scored qEmb chunks topK)
      /\ exists sorted,
          Permutation (map (McpRemote.score_chunk qEmb) chunks) sorted
          /\ (no_nan_weighted (map (McpRemote.score_chunk qEmb) chunks) ->
              descending sorted)
          /\ McpRemote.scored qEmb chunks topK
             = firstn (Z.to_nat topK) sorted).
Proof.
  intros Hk. split; split.
  - apply ranking_entries. intros c Hc. cbn. auto.
  - destruct (ranking_chain (Server.score_chunk qEmb query) chunks topK Hk)
      as [sorted [Hp [Hd [_ He]]]].
    exists sorted. auto.
  - apply ranking_entries. intros c Hc. cbn. auto.
  - destruct (ranking_chain (McpRemote.score_chunk qEmb) chunks topK Hk)
      as [sorted [Hp [Hd [_ He]]]].
    exists sorted. auto.
Qed.

(** C2, witness: the two sample chunks and [topK = 1]. *)
Lemma ranker_pipeline_witness :
  (0 <= 1)%Z
  /\ Forall
       (fun r =>
          In (chunk r) [chunk_retry; chunk_plain]
          /\ score r = cosineSim [1; 0]%float (embedding (chunk r))
          /\ weighted r
             = (score r * Server.sourceWeight (source (meta (chunk r)))
                * Server.headingWeight (heading (meta (chunk r)))
                    Server.s_retry)%float)
       (Server.scored [1; 0]%float [chunk_retry; chunk_plain]
          Server.s_retry 1).
Proof.
  split; [lia|].
  apply (ranker_pipeline [1; 0]%float [chunk_retry; chunk_plain]
           Server.s_retry 1).
  lia.
Defined.

(** C3, counterexample.  A query vector of length 2 against an embedding of
    length 3: [cosineSim] returns the number 0.196..., and the search handler
    returns an ordinary result list that includes the chunk; nothing is
    signalled. *)
Lemma unequal_lengths_unsignalled_counterexample :
  List.length [1; 0]%float <> List.length (embedding chunk_long)
  /\ cosineSim [1; 0]%float (embedding chunk_long)
     = 0.19611613513818404%float
  /\ run (search sample_base (provider_returning [1; 0]%float)
            {| model := sample_model; chunks := [chunk_long; chunk_plain] |}
            (JStr (lit "refund policy")))
     = (Returned
          {| isError := false;
             content :=
               ResultsPayload
                 [result_of sample_base
                    (McpRemote.score_chunk [1; 0]%float chunk_plain);
                  result_of sample_base
                    (McpRemote.score_chunk [1; 0]%float chunk_long)] |},
        [{| call_model := sample_model;
            call_input := [lit "refund policy"] |}]).
Proof.
  split; [cbn; discriminate|].
  split; vm_compute; reflexivity.
Qed.

(** C3, as amended.  For vectors of unequal length the similarity
    computation signals nothing.  When the second vector is the longer one,
    [dot] ignores its surplus components (its [norm] still counts them) and a
    number is returned; when it is the shorter one, its missing components
    read as [undefined], the dot product is [NaN], and the similarity is
    [NaN] (or 0 when a norm is zero).  The search handler answers with a
    result list whatever the length of the query vector is. *)
Theorem cosineSim_unequal_lengths (a b : list float) :
  List.length a <> List.length b ->
  (((List.length a < List.length b)%nat
    /\ dot a b = dot a (firstn (List.length a) b))
   \/ ((List.length b < List.length a)%nat
       /\ dot a b = nan
       /\ (cosineSim a b = nan \/ cosineSim a b = 0%float)))
  /\ forall base provider index raw rest,
      trim (query (normalizeSearchArgs raw)) <> [] ->
      provider (model index) [trim (query (normalizeSearchArgs raw))]
      = Returned (a :: rest) ->
      exists results,
        run (search base provider index raw)
        = (Returned {| isError := false; content := ResultsPayload results |},
           [{| call_model := model index;
               call_input := [trim (query (normalizeSearchArgs raw))] |}]).
Proof.
  intros Hne. split.
  - destruct (Nat.lt_total (List.length a) (List.length b))
      as [Hlt | [Heq | Hgt]]; [left | contradiction | right].
    + split; [exact Hlt | apply dot_loop_firstn].
    + split; [exact Hgt|].
      split; [now apply dot_loop_short | now apply cosineSim_short].
  - intros base provider index raw rest Hq Hp. eexists.
    now apply (search_answers base provider index raw a rest).
Qed.

(** C3, witness: a vector of length 3 against one of length 2. *)
Lemma cosineSim_unequal_lengths_witness :
  List.length [1; 0; 5]%float <> List.length [1; 0]%float
  /\ (((List.length [1; 0; 5]%float < List.length [1; 0]%float)%nat
       /\ dot [1; 0; 5]%float [1; 0]%float
          = dot [1; 0; 5]%float
              (firstn (List.length [1; 0; 5]%float) [1; 0]%float))
      \/ ((List.length [1; 0]%float < List.length [1; 0; 5]%float)%nat
          /\ dot [1; 0; 5]%float [1; 0]%float = nan
          /\ (cosineSim [1; 0; 5]%float [1; 0]%float = nan
              \/ cosineSim [1; 0; 5]%float [1; 0]%float = 0%float))).
Proof.
  assert (H : List.length [1; 0; 5]%float <> List.length [1; 0]%float)
    by (cbn; discriminate).
  split; [exact H|].
  exact (proj1 (cosineSim_unequal_lengths [1; 0; 5]%float [1; 0]%float H)).
Defined.

(** C4.  [normalizeSearchArgs] unwraps envelopes recursively, an [arguments]
    key first, else an [input] key, and stops at a value that has neither; a
    bare string [s] yields [{query: s, topK: 8}]; a string-valued [query]
    field is taken as the query text whatever [q] is, and a string-valued
    [q] field when [query] is no string; a numeric, finite [topK] is
    truncated and clamped into [1, 20], and [topK] is 8 when the field is
    absent, not a number, or not finite; [topK] is always within [1, 20].
    The three sample calls of the specification evaluate as it says. *)
Theorem normalizeSearchArgs_contract :
  (forall v,
      unwrap v
      = if has_property (lit "arguments") v
        then unwrap (get_property (lit "arguments") v)
        else if has_property (lit "input") v
             then unwrap (get_property (lit "input") v)
             else v)
  /\ (forall v,
        has_property (lit "arguments") (unwrap v) = false
        /\ has_property (lit "input") (unwrap v) = false)
  /\ (forall raw s,
        unwrap raw = JStr s ->
        normalizeSearchArgs raw = {| query := s; topK := 8 |})
  /\ (forall raw fs s,
        unwrap raw = JObj fs ->
        lookup (lit "query") fs = Some (JStr s) ->
        query (normalizeSearchArgs raw) = s)
  /\ (forall raw fs s,
        unwrap raw = JObj fs ->
        (forall s', lookup (lit "query") fs <> Some (JStr s')) ->
        lookup (lit "q") fs = Some (JStr s) ->
        query (normalizeSearchArgs raw) = s)
  /\ (forall raw fs s,
        unwrap raw = JObj fs ->
        located_query (JObj fs) = Some s ->
        topK (normalizeSearchArgs raw)
        = match lookup (lit "topK") fs with
          | Some (JNum x) =>
              if is_finite x then Z.max 1 (Z.min 20 (Math_trunc x))
              else 8%Z
          | _ => 8%Z
          end)
  /\ (forall raw, (1 <= topK (normalizeSearchArgs raw) <= 20)%Z)
  /\ (Math_trunc 3.7%float = 3%Z /\ Math_trunc (-3.7)%float = (-3)%Z
      /\ Math_trunc 99%float = 99%Z)
  /\ normalizeSearchArgs (JStr (lit "hello"))
     = {| query := lit "hello"; topK := 8 |}
  /\ normalizeSearchArgs
       (JObj [(lit "query", JStr (lit "x")); (lit "topK", JNum 99%float)])
     = {| query := lit "x"; topK := 20 |}
  /\ normalizeSearchArgs (JObj [(lit "input", JObj [(lit "q", JStr (lit "y"))])])
     = {| query := lit "y"; topK := 8 |}.
Proof.
  split; [exact unwrap_spec|].
  split; [exact unwrap_stops|].
  split.
  { intros raw s H. unfold normalizeSearchArgs. now rewrite H. }
  split.
  { intros raw fs s H Hq. rewrite normalizeSearchArgs_query, H.
    cbn [located_query]. now rewrite Hq. }
  split.
  { intros raw fs s H Hq Hq'. rewrite normalizeSearchArgs_query, H.
    cbn [located_query].
    destruct (lookup (lit "query") fs) as [[| | b | x | s0 | items | fs']|];
      try (now rewrite Hq').
    exfalso. now apply (Hq s0). }
  split.
  { intros raw fs s H Hq. rewrite normalizeSearchArgs_topK, H, Hq.
    reflexivity. }
  split; [exact normalizeSearchArgs_topK_range|].
  repeat split; vm_compute; reflexivity.
Qed.

(** C5.  For every search payload in which no string-valued query can be
    located after unwrapping, or whose located query is empty once trimmed,
    the handler returns the tagged error [invalid_query], and the trace of
    provider calls is empty: no embedding is requested. *)
Theorem search_invalid_query_before_provider (base : jsstring)
  (provider : jsstring -> list jsstring -> outcome (list (list float)))
  (index : IndexFile) (raw : JsValue) :
  located_query (unwrap raw) = None
  \/ (exists s, located_query (unwrap raw) = Some s /\ trim s = []) ->
  run (search base provider index raw)
  = (Returned
       {| isError := true;
          content :=
            ErrorPayload (lit "invalid_query")
              (lit "search arguments did not contain a valid query string") |},
     []).
Proof.
  intros H. apply search_rejects. rewrite normalizeSearchArgs_query.
  destruct H as [-> | [s [-> Hs]]]; [reflexivity | exact Hs].
Qed.

(** C5, witness: a doubly wrapped query made of spaces only. *)
Lemma search_invalid_query_before_provider_witness :
  (exists s,
      located_query
        (unwrap (JObj [(lit "arguments",
                        JObj [(lit "query", JStr (lit "   "))])])) = Some s
      /\ trim s = [])
  /\ run (search sample_base (provider_returning [1; 0]%float)
            (index_api_faq [1; 0]%float)
            (JObj [(lit "arguments", JObj [(lit "query", JStr (lit "   "))])]))
     = (Returned
          {| isError := true;
             content :=
               ErrorPayload (lit "invalid_query")
                 (lit "search arguments did not contain a valid query string") |},
        []).
Proof.
  assert (H : exists s,
      located_query
        (unwrap (JObj [(lit "arguments",
                        JObj [(lit "query", JStr (lit "   "))])])) = Some s
      /\ trim s = []).
  { exists (lit "   "). split; reflexivity. }
  split; [exact H|].
  apply (search_invalid_query_before_provider sample_base
           (provider_returning [1; 0]%float) (index_api_faq [1; 0]%float)).
  right. exact H.
Defined.

(** C6, counterexample.  An index with an embedding shorter than the query
    vector: that chunk's weighted score is [NaN], the comparator answers
    [NaN] whenever it is compared, and the result is 0.8, [NaN], 1.15: not
    descending. *)
Lemma nan_weighted_unsorted_counterexample :
  map weighted (McpRemote.scored [1; 0]%float (chunks index_mixed_lengths) 8)
  = [0.80000000000000004; nan; 1.1499999999999999]%float
  /\ ~ descending
         (McpRemote.scored [1; 0]%float (chunks index_mixed_lengths) 8).
Proof.
  split; [vm_compute; reflexivity|].
  intros H.
  assert (E : exists a b c,
    McpRemote.scored [1; 0]%float (chunks index_mixed_lengths) 8 = [a; b; c]
    /\ (weighted c <=? weighted a)%float = false).
  { eexists _, _, _. split; vm_compute; reflexivity. }
  destruct E as [a [b [c [E Hle]]]]. rewrite E in H.
  inversion H as [|? ? _ Hall]; subst.
  inversion Hall as [|? ? _ Hall']; subst.
  inversion Hall' as [|? ? Hc _]; subst.
  congruence.
Qed.

(** C6, as amended.  For every query vector, chunk list and [topK >= 0] the
    ranking of [src/mcp_remote.ts] returns at most [topK] entries; when no
    weighted score is [NaN] they are sorted by [weighted] descending, and
    they are the first [topK] of an arrangement of the scored chunks in
    which entries of equal weighted score keep the order of the index; that
    arrangement is the only descending one with this property, so equal
    inputs give one and the same order. *)
Theorem scored_at_most_topK_descending (qEmb : list float)
  (chunks : list IndexedChunk) (topK : Z) :
  (0 <= topK)%Z ->
  (List.length (McpRemote.scored qEmb chunks topK) <= Z.to_nat topK)%nat
  /\ (no_nan_weighted (map (McpRemote.score_chunk qEmb) chunks) ->
      descending (McpRemote.scored qEmb chunks topK)
      /\ exists sorted,
          McpRemote.scored qEmb chunks topK = firstn (Z.to_nat topK) sorted
          /\ Permutation (map (McpRemote.score_chunk qEmb) chunks) sorted
          /\ (forall v,
                with_weighted v sorted
                = with_weighted v (map (McpRemote.score_chunk qEmb) chunks))
          /\ (forall l,
                Permutation (map (McpRemote.score_chunk qEmb) chunks) l ->
                descending l ->
                (forall v,
                    with_weighted v l
                    = with_weighted v
                        (map (McpRemote.score_chunk qEmb) chunks)) ->
                l = sorted)).
Proof.
  intros Hk. unfold McpRemote.scored.
  destruct (ranking_chain (McpRemote.score_chunk qEmb) chunks topK Hk)
    as [sorted [Hp [Hd [Hst He]]]].
  rewrite He. split; [apply firstn_le_length|].
  intros Hok. split; [apply descending_firstn; auto|].
  exists sorted. repeat split; auto.
  intros l Hpl Hdl Hstl. apply stable_descending_unique; auto.
  - exact (Permutation_Forall Hpl Hok).
  - now rewrite <- Hpl.
  - intros v. now rewrite Hstl, Hst.
Qed.

(** C6, witness: two chunks of equal raw similarity and [topK = 1]. *)
Lemma scored_at_most_topK_descending_witness :
  (0 <= 1)%Z
  /\ no_nan_weighted
       (map (McpRemote.score_chunk [1; 1]%float)
          [chunk_faq [1; 0]%float; chunk_api [1; 0]%float])
  /\ (List.length
        (McpRemote.scored [1; 1]%float
           [chunk_faq [1; 0]%float; chunk_api [1; 0]%float] 1)
      <= Z.to_nat 1)%nat
  /\ descending
       (McpRemote.scored [1; 1]%float
          [chunk_faq [1; 0]%float; chunk_api [1; 0]%float] 1).
Proof.
  assert (Hok : no_nan_weighted
       (map (McpRemote.score_chunk [1; 1]%float)
          [chunk_faq [1; 0]%float; chunk_api [1; 0]%float])).
  { repeat constructor. }
  split; [lia|]. split; [exact Hok|].
  destruct (scored_at_most_topK_descending [1; 1]%float
              [chunk_faq [1; 0]%float; chunk_api [1; 0]%float] 1)
    as [Hlen Hd]; [lia|].
  split; [exact Hlen | exact (proj1 (Hd Hok))].
Defined.

(** C7, counterexample.  In binary64 the similarity of [1, 2] with itself
    is 0.9999999999999998, not 1; for the non-zero vector [1e-200] the
    square underflows, the computed norm is 0, and the similarity of the
    vector with itself is 0; and for [1e200] the square overflows and the
    similarity of the vector with itself is [NaN]. *)
Lemma self_similarity_not_one_counterexample :
  cosineSim [1; 2]%float [1; 2]%float = 0.99999999999999978%float
  /\ (cosineSim [1; 2]%float [1; 2]%float =? 1)%float = false
  /\ (1e-200 =? 0)%float = false
  /\ dot [1e-200]%float [1e-200]%float = 0%float
  /\ cosineSim [1e-200]%float [1e-200]%float = 0%float
  /\ dot [1e200]%float [1e200]%float = infinity
  /\ is_nan (cosineSim [1e200]%float [1e200]%float) = true.
Proof. repeat split; vm_compute; reflexivity. Qed.

(** C7, as amended.  The similarity is 0 whenever either computed norm is
    zero, in particular against the zero vector of any length, on either
    side; it is symmetric on vectors of equal length.  The similarity of
    [v] with itself is 1 up to rounding only: whenever the computed
    [dot(v, v)] lies between [2^-1000] and [2^1000] (the squares neither
    underflow nor overflow) it lies between [1 - 2^-50] and [1 + 2^-50]
    (it is exactly 1 for [3, 4] and for [1, 0, 0]); it is 0 when the
    computed [dot(v, v)] is zero, and [NaN] when [dot(v, v)] overflows to
    infinity. *)
Theorem cosineSim_properties :
  (forall a b,
      (norm a =? 0)%float = true \/ (norm b =? 0)%float = true ->
      cosineSim a b = 0%float)
  /\ (forall v n,
        cosineSim v (zeroVector n) = 0%float
        /\ cosineSim (zeroVector n) v = 0%float)
  /\ (forall a b,
        List.length a = List.length b -> cosineSim a b = cosineSim b a)
  /\ (forall v,
        (0x1p-1000 <=? dot v v)%float = true ->
        (dot v v <=? 0x1p+1000)%float = true ->
        (1 - 0x1p-50 <=? cosineSim v v)%float = true
        /\ (cosineSim v v <=? 1 + 0x1p-50)%float = true)
  /\ (forall v, (dot v v =? 0)%float = true -> cosineSim v v = 0%float)
  /\ (forall v, dot v v = infinity -> is_nan (cosineSim v v) = true)
  /\ cosineSim [3; 4]%float [3; 4]%float = 1%float
  /\ cosineSim [1; 0; 0]%float [1; 0; 0]%float = 1%float
  /\ ((0x1p-1000 <=? dot [1; 2] [1; 2])%float = true
      /\ (dot [1; 2] [1; 2] <=? 0x1p+1000)%float = true
      /\ cosineSim [1; 2]%float [1; 2]%float = (1 - 0x1p-52)%float).
Proof.
  split; [exact cosineSim_zero_norm|].
  split.
  { intros v n. split; apply cosineSim_zero_norm;
      [right | left]; now rewrite norm_zeroVector. }
  split; [exact cosineSim_comm|].
  split; [exact cosineSim_self_near_one|].
  split; [exact cosineSim_self_zero_dot|].
  split; [exact cosineSim_self_overflow|].
  repeat split; vm_compute; reflexivity.
Qed.

(** C8, counterexample.  Both chunks have raw similarity -1 to the query
    vector; the weighted scores are -1.15 for the source weighted 1.15 and
    -0.95 for the source weighted 0.95, and the latter ranks first although
    it comes second in the index.  (A positive similarity is not enough
    either: for the smallest positive number, 5e-324, the two products round
    to the same value and the order of the index decides.) *)
Lemma negative_similarity_counterexample :
  McpRemote.sourceWeight (source (meta (chunk_api [-1]%float)))
  = 1.1499999999999999%float
  /\ McpRemote.sourceWeight (source (meta (chunk_faq [-1]%float)))
     = 0.94999999999999996%float
  /\ cosineSim [1]%float (embedding (chunk_api [-1]%float)) = (-1)%float
  /\ cosineSim [1]%float (embedding (chunk_faq [-1]%float)) = (-1)%float
  /\ map (fun r => id (chunk r))
       (McpRemote.scored [1]%float
          [chunk_api [-1]%float; chunk_faq [-1]%float] 8)
     = [id (chunk_faq [-1]%float); id (chunk_api [-1]%float)]
  /\ map weighted
       (McpRemote.scored [1]%float
          [chunk_api [-1]%float; chunk_faq [-1]%float] 8)
     = [-0.94999999999999996; -1.1499999999999999]%float
  /\ map (fun r => (id (chunk r), score r, weighted r))
       (McpRemote.scored [5e-324; 1]%float
          [chunk_faq [1; 0]%float; chunk_api [1; 0]%float] 8)
     = [(id (chunk_faq [1; 0]%float), 5e-324, 5e-324)%float;
        (id (chunk_api [1; 0]%float), 5e-324, 5e-324)%float].
Proof. repeat split; vm_compute; reflexivity. Qed.

(** C8, as amended.  For every index that contains a chunk of a source
    weighted 1.15 and a chunk of a source weighted 0.95 with one and the
    same raw similarity [s] to the query vector: if [s * 0.95 < s * 1.15] in
    binary64 and no weighted score of the index is [NaN], the chunk of the
    1.15 source ranks before the other one, in the sorted order and, when
    the other one is among the results returned, among those. *)
Theorem heavier_source_ranks_first (qEmb : list float)
  (chunks : list IndexedChunk) (topK : Z) (A B : IndexedChunk) (s : float) :
  (0 <= topK)%Z ->
  In A chunks -> In B chunks ->
  McpRemote.sourceWeight (source (meta A)) = 1.15%float ->
  McpRemote.sourceWeight (source (meta B)) = 0.95%float ->
  cosineSim qEmb (embedding A) = s ->
  cosineSim qEmb (embedding B) = s ->
  (s * 0.95 <? s * 1.15)%float = true ->
  no_nan_weighted (map (McpRemote.score_chunk qEmb) chunks) ->
  ranks_before (McpRemote.score_chunk qEmb A) (McpRemote.score_chunk qEmb B)
    (Array_sort by_weighted_desc (map (McpRemote.score_chunk qEmb) chunks))
  /\ (In (McpRemote.score_chunk qEmb B) (McpRemote.scored qEmb chunks topK) ->
      ranks_before (McpRemote.score_chunk qEmb A)
        (McpRemote.score_chunk qEmb B) (McpRemote.scored qEmb chunks topK)).
Proof.
  intros Hk HA HB HwA HwB HsA HsB Hlt Hok.
  set (a := McpRemote.score_chunk qEmb A).
  set (b := McpRemote.score_chunk qEmb B).
  set (all := map (McpRemote.score_chunk qEmb) chunks) in *.
  assert (Hwa : weighted a = (s * 1.15)%float)
    by (subst a; cbn; now rewrite HsA, HwA).
  assert (Hwb : weighted b = (s * 0.95)%float)
    by (subst b; cbn; now rewrite HsB, HwB).
  assert (Hina : In a all) by (apply in_map; exact HA).
  assert (Hinb : In b all) by (apply in_map; exact HB).
  assert (Hnan : is_nan (weighted a) = false).
  { unfold no_nan_weighted in Hok. rewrite Forall_forall in Hok.
    now apply Hok. }
  assert (Hlt' : (weighted b <? weighted a)%float = true)
    by now rewrite Hwa, Hwb.
  pose proof (sort_descending all Hok) as Hd.
  pose proof (sort_perm by_weighted_desc all) as Hp.
  split.
  - apply descending_ranks_before; try assumption;
      now apply (Permutation_in _ Hp).
  - unfold McpRemote.scored. fold all.
    rewrite Array_slice0_firstn by exact Hk.
    apply descending_ranks_before_firstn; try assumption.
    now apply (Permutation_in _ Hp).
Qed.

(** C8, witness: raw similarity 0.7071... for both chunks, the FAQ chunk
    first in the index. *)
Lemma heavier_source_ranks_first_witness :
  ranks_before
    (McpRemote.score_chunk [1; 1]%float (chunk_api [1; 0]%float))
    (McpRemote.score_chunk [1; 1]%float (chunk_faq [1; 0]%float))
    (McpRemote.scored [1; 1]%float
       [chunk_faq [1; 0]%float; chunk_api [1; 0]%float] 8).
Proof.
  apply (heavier_source_ranks_first [1; 1]%float
           [chunk_faq [1; 0]%float; chunk_api [1; 0]%float] 8
           (chunk_api [1; 0]%float) (chunk_faq [1; 0]%float)
           (cosineSim [1; 1]%float [1; 0]%float)).
  - lia.
  - right. now left.
  - now left.
  - reflexivity.
  - reflexivity.
  - reflexivity.
  - reflexivity.
  - vm_compute. reflexivity.
  - repeat constructor.
  - vm_compute. right. now left.
Defined.

(** C9.  [normalizeFetchArgs] opens envelopes as [normalizeSearchArgs]
    does, through the same recursive [unwrap]: an [arguments] property is
    followed first, else an [input] property, until neither is present.
    After unwrapping, a bare string is the id and the string-valued [id]
    field of an object is the id; and for every payload from which no
    non-empty id string is obtained this way, the fetch handler answers
    with the tagged error [invalid_id]. *)
Theorem normalizeFetchArgs_contract (base : jsstring) (index : IndexFile)
  (raw : JsValue) :
  (forall v,
      unwrap v
      = if has_property (lit "arguments") v
        then unwrap (get_property (lit "arguments") v)
        else if has_property (lit "input") v
             then unwrap (get_property (lit "input") v)
             else v)
  /\ (has_property (lit "arguments") (unwrap raw) = false
      /\ has_property (lit "input") (unwrap raw) = false)
  /\ (forall fs v,
        lookup (lit "arguments") fs = Some v ->
        normalizeFetchArgs (JObj fs) = normalizeFetchArgs v
        /\ normalizeSearchArgs (JObj fs) = normalizeSearchArgs v)
  /\ (forall fs v,
        lookup (lit "arguments") fs = None ->
        lookup (lit "input") fs = Some v ->
        normalizeFetchArgs (JObj fs) = normalizeFetchArgs v
        /\ normalizeSearchArgs (JObj fs) = normalizeSearchArgs v)
  /\ normalizeFetchArgs (unwrap raw) = normalizeFetchArgs raw
  /\ normalizeSearchArgs (unwrap raw) = normalizeSearchArgs raw
  /\ (forall s, unwrap raw = JStr s -> normalizeFetchArgs raw = s)
  /\ (forall fs s,
        unwrap raw = JObj fs ->
        lookup (lit "id") fs = Some (JStr s) ->
        normalizeFetchArgs raw = s)
  /\ (located_id (unwrap raw) = None \/ located_id (unwrap raw) = Some [] ->
      run (fetch base index raw)
      = (Returned
           {| isError := true;
              content :=
                ErrorPayload (lit "invalid_id")
                  (lit "fetch arguments did not contain a valid id string") |},
         []))
  /\ normalizeFetchArgs (JObj [(lit "arguments", JObj [(lit "id", JStr (lit "x"))])])
     = lit "x"
  /\ normalizeFetchArgs
       (JObj [(lit "id", JStr (lit "z"));
              (lit "input", JObj [(lit "arguments", JStr (lit "y"))])])
     = lit "y"
  /\ run (fetch base index
            (JObj [(lit "arguments",
                    JObj [(lit "input", JObj [(lit "id", JStr (lit "  "))])])]))
     = (Returned
          {| isError := true;
             content :=
               ErrorPayload (lit "invalid_id")
                 (lit "fetch arguments did not contain a valid id string") |},
        []).
Proof.
  split; [exact unwrap_spec|].
  split; [exact (unwrap_stops raw)|].
  split.
  { intros fs v H. unfold normalizeFetchArgs, normalizeSearchArgs.
    rewrite unwrap_JObj, H. split; reflexivity. }
  split.
  { intros fs v H1 H2. unfold normalizeFetchArgs, normalizeSearchArgs.
    rewrite unwrap_JObj, H1, H2. split; reflexivity. }
  split.
  { unfold normalizeFetchArgs. now rewrite unwrap_idempotent. }
  split.
  { unfold normalizeSearchArgs. now rewrite unwrap_idempotent. }
  split.
  { intros s H. unfold normalizeFetchArgs. now rewrite H. }
  split.
  { intros fs s H Hid. rewrite normalizeFetchArgs_located, H.
    cbn [located_id]. now rewrite Hid. }
  split.
  { intros H. apply fetch_rejects. rewrite normalizeFetchArgs_located.
    destruct H as [-> | ->]; reflexivity. }
  split; [reflexivity|]. split; [reflexivity|].
  apply fetch_rejects. reflexivity.
Qed.




(** * Further properties of the code *)

(** ** The [fetch] tool of [src/mcp_remote.ts] *)

(** X1. The fetch handler never throws, never calls the provider and never
    answers [fetch_failed].  With [i] the normalised, trimmed id, its
    result is exactly one of: the flagged [invalid_id] error when [i] is
    empty; the flagged not-found record for [i] when no chunk has the id
    [i]; or, unflagged, the document of the first chunk of the index whose
    id is [i]. *)
Theorem fetch_outcomes (base : jsstring) (index : IndexFile) (raw : JsValue) :
  let i := trim (normalizeFetchArgs raw) in
  exists r,
    run (fetch base index raw) = (Returned r, [])
    /\ (forall m, content r <> ErrorPayload (lit "fetch_failed") m)
    /\ ((i = []
         /\ r = {| isError := true;
                   content :=
                     ErrorPayload (lit "invalid_id")
                       (lit "fetch arguments did not contain a valid id string") |})
        \/ (i <> []
            /\ (forall c, In c (chunks index) -> id c <> i)
            /\ r = {| isError := true; content := not_found_doc base i |})
        \/ (i <> []
            /\ exists before c after,
                chunks index = before ++ c :: after
                /\ id c = i
                /\ Forall (fun x => id x <> i) before
                /\ r = {| isError := false; content := doc_of base c |})).
Proof.
  intros i. subst i.
  destruct (trim (normalizeFetchArgs raw)) as [|c0 t] eqn:E.
  - eexists. split; [now apply fetch_rejects|]. split; [discriminate|].
    left. split; reflexivity.
  - rewrite <- E.
    assert (Hne : trim (normalizeFetchArgs raw) <> [])
      by (rewrite E; discriminate).
    destruct (find_chunk index (trim (normalizeFetchArgs raw)))
      as [c|] eqn:Hf.
    + eexists. split; [now apply (fetch_hits _ _ _ c)|]. split; [discriminate|].
      right. right. split; [exact Hne|].
      destruct (find_chunk_first _ _ _ Hf) as [l1 [l2 [El [Hid Hl]]]].
      exists l1, c, l2. repeat split; auto.
    + eexists. split; [now apply fetch_misses|]. split; [discriminate|].
      right. left. split; [exact Hne|]. split; [|reflexivity].
      now apply find_chunk_miss.
Qed.

(** ** The [search] tool of [src/mcp_remote.ts] *)

(** X2. The search handler never throws and calls the provider at most
    once.  Its result is unflagged exactly when the trimmed query is
    non-empty and the provider returns at least one embedding; a provider
    failure with message [e] is answered by the flagged error
    [search_failed] carrying [e], and an empty [data] array by
    [search_failed] carrying the [TypeError] message, never by an empty
    result list. *)
Theorem search_outcomes (base : jsstring)
  (provider : jsstring -> list jsstring -> outcome (list (list float)))
  (index : IndexFile) (raw : JsValue) :
  let q := trim (query (normalizeSearchArgs raw)) in
  exists r tr,
    run (search base provider index raw) = (Returned r, tr)
    /\ (List.length tr <= 1)%nat
    /\ (isError r = false
        <-> q <> []
            /\ exists qEmb rest,
                provider (model index) [q] = Returned (qEmb :: rest))
    /\ (q <> [] ->
        forall e, provider (model index) [q] = Thrown e ->
        r = {| isError := true;
               content := ErrorPayload (lit "search_failed") e |})
    /\ (q <> [] ->
        provider (model index) [q] = Returned [] ->
        r = {| isError := true;
               content :=
                 ErrorPayload (lit "search_failed")
                   (lit "Cannot read properties of undefined (reading 'embedding')") |}).
Proof.
  intros q. subst q.
  destruct (trim (query (normalizeSearchArgs raw))) as [|c0 t] eqn:E.
  - eexists _, _. split; [now apply search_rejects|].
    split; [cbn; lia|]. split; [|split; congruence].
    cbn. split; [discriminate | intros [H _]; congruence].
  - rewrite <- E.
    assert (Hne : trim (query (normalizeSearchArgs raw)) <> [])
      by (rewrite E; discriminate).
    destruct (provider (model index) [trim (query (normalizeSearchArgs raw))])
      as [[|qEmb rest]|e] eqn:Hp.
    + eexists _, _. split; [now apply search_fails_on_empty_data|].
      split; [cbn; lia|]. split; [|split; [discriminate | reflexivity]].
      cbn. split; [discriminate | intros [_ [? [? ?]]]; discriminate].
    + eexists _, _. split; [now apply (search_answers _ _ _ _ qEmb rest)|].
      split; [cbn; lia|]. split; [|split; discriminate].
      cbn. split; [|reflexivity]. intros _. split; [exact Hne|].
      now exists qEmb, rest.
    + eexists _, _. split; [now apply (search_fails _ _ _ _ e)|].
      split; [cbn; lia|]. split; [|split; [|discriminate]].
      * cbn. split; [discriminate | intros [_ [? [? ?]]]; discriminate].
      * intros _ e' He'. injection He' as <-. reflexivity.
Qed.


(** X4. White space around a string payload is invisible to both tools: a
    query or an id padded with white-space code units on either side runs
    exactly as the unpadded one (same result, same provider requests). *)
Theorem tools_ignore_outer_white_space (base : jsstring)
  (provider : jsstring -> list jsstring -> outcome (list (list float)))
  (index : IndexFile) (p1 s p2 : jsstring) :
  all_white_space p1 -> all_white_space p2 ->
  run (search base provider index (JStr (p1 ++ s ++ p2)))
  = run (search base provider index (JStr s))
  /\ run (fetch base index (JStr (p1 ++ s ++ p2)))
     = run (fetch base index (JStr s)).
Proof.
  intros H1 H2. unfold run, search, fetch, try_catch.
  change (query (normalizeSearchArgs (JStr (p1 ++ s ++ p2))))
    with (p1 ++ s ++ p2).
  change (query (normalizeSearchArgs (JStr s))) with s.
  change (topK (normalizeSearchArgs (JStr (p1 ++ s ++ p2)))) with 8%Z.
  change (topK (normalizeSearchArgs (JStr s))) with 8%Z.
  change (normalizeFetchArgs (JStr (p1 ++ s ++ p2))) with (p1 ++ s ++ p2).
  change (normalizeFetchArgs (JStr s)) with s.
  rewrite (trim_pad p1 s p2 H1 H2). split; reflexivity.
Qed.

(** X4, witness: the query and id ["oauth"] between two spaces and one. *)
Lemma tools_ignore_outer_white_space_witness :
  run (search sample_base (provider_returning [1; 0]%float)
         (index_api_faq [1; 0]%float)
         (JStr (lit "  " ++ lit "oauth" ++ lit " ")))
  = run (search sample_base (provider_returning [1; 0]%float)
           (index_api_faq [1; 0]%float) (JStr (lit "oauth")))
  /\ run (fetch sample_base (index_api_faq [1; 0]%float)
            (JStr (lit "  " ++ lit "oauth" ++ lit " ")))
     = run (fetch sample_base (index_api_faq [1; 0]%float)
              (JStr (lit "oauth"))).
Proof.
  apply tools_ignore_outer_white_space;
    repeat constructor.
Defined.

(** X5. An envelope key hides everything beside it.  For an object with an
    [arguments] field both normalisations give what they give for that
    field's value alone, whatever the other fields (a sibling [query],
    [id], [topK] or [input] is ignored); for an object with no [arguments]
    field but an [input] field they give what they give for the value of
    [input]. *)
Theorem envelope_hides_siblings (fs : list (jsstring * JsValue)) (v : JsValue) :
  (lookup (lit "arguments") fs = Some v ->
   normalizeSearchArgs (JObj fs) = normalizeSearchArgs v
   /\ normalizeFetchArgs (JObj fs) = normalizeFetchArgs v)
  /\ (lookup (lit "arguments") fs = None ->
      lookup (lit "input") fs = Some v ->
      normalizeSearchArgs (JObj fs) = normalizeSearchArgs v
      /\ normalizeFetchArgs (JObj fs) = normalizeFetchArgs v).
Proof.
  split.
  - intros H. unfold normalizeSearchArgs, normalizeFetchArgs.
    rewrite unwrap_JObj, H. split; reflexivity.
  - intros H1 H2. unfold normalizeSearchArgs, normalizeFetchArgs.
    rewrite unwrap_JObj, H1, H2. split; reflexivity.
Qed.

(** ** From [search] to [fetch] *)

(** X6. Round trip.  When every id of the index is non-empty, has no white
    space at either end and belongs to one chunk only, every entry of a
    search result can be fetched back: [fetch], given the entry's id
    (bare, or in any argument shape that normalises to it), returns
    unflagged the document of a chunk of the index with that id, the same
    title and the same url as the entry, no provider being called. *)
Theorem search_results_fetch_back (base : jsstring)
  (provider : jsstring -> list jsstring -> outcome (list (list float)))
  (index : IndexFile) (raw : JsValue) (results : list ResultItem)
  (tr : list ProviderCall) :
  fetchable_ids index ->
  run (search base provider index raw)
  = (Returned {| isError := false; content := ResultsPayload results |}, tr) ->
  Forall
    (fun r =>
       exists c,
         In c (chunks index)
         /\ forall args,
             normalizeFetchArgs args = result_id r ->
             run (fetch base index args)
             = (Returned
                  {| isError := false;
                     content :=
                       DocumentPayload (result_id r) (result_title r)
                         (text c) (result_url r) (MetaOfChunk (meta c)) |},
                []))
    results.
Proof.
  intros [Hnd Hids] Hrun.
  destruct (search_cases base provider index raw)
    as [[_ H] | [_ [r [H [[e ->] | [qEmb ->]]]]]];
    rewrite H in Hrun; try discriminate.
  injection Hrun as <- _.
  apply Forall_forall. intros r Hr.
  apply in_map_iff in Hr. destruct Hr as [s [<- Hs]].
  apply scored_from_index in Hs. destruct Hs as [c [Hc ->]].
  exists c. split; [exact Hc|]. intros args Hargs.
  cbn [result_of result_id result_title result_url McpRemote.score_chunk chunk]
    in *.
  rewrite Forall_forall in Hids. destruct (Hids c Hc) as [Hne Htrim].
  assert (Ei : trim (normalizeFetchArgs args) = id c) by congruence.
  rewrite (fetch_hits base index args c).
  - reflexivity.
  - rewrite Ei. exact Hne.
  - rewrite Ei. now apply find_chunk_unique.
Qed.

(** X6, witness: the sample index of an API and a FAQ chunk. *)
Lemma search_results_fetch_back_witness :
  Forall
    (fun r =>
       exists c,
         In c (chunks (index_api_faq [1; 0]%float))
         /\ forall args,
             normalizeFetchArgs args = result_id r ->
             run (fetch sample_base (index_api_faq [1; 0]%float) args)
             = (Returned
                  {| isError := false;
                     content :=
                       DocumentPayload (result_id r) (result_title r)
                         (text c) (result_url r) (MetaOfChunk (meta c)) |},
                []))
    (map (result_of sample_base)
       (McpRemote.scored [1; 0]%float
          (chunks (index_api_faq [1; 0]%float)) 8)).
Proof.
  apply (search_results_fetch_back sample_base
           (provider_returning [1; 0]%float) (index_api_faq [1; 0]%float)
           (JStr (lit "oauth")) _
           [{| call_model := sample_model; call_input := [lit "oauth"] |}]).
  - split.
    + repeat constructor; cbn; intuition discriminate.
    + repeat constructor; try discriminate; vm_compute; reflexivity.
  - vm_compute. reflexivity.
Defined.

(** X7. A search never returns a chunk twice: when the ids of the index are
    pairwise distinct, so are the ids of the returned entries; and every
    returned entry is built from a chunk of the index (its id, the title
    [heading (source)], the url [DOC_BASE_URL] followed by the source). *)
Theorem search_results_distinct (base : jsstring)
  (provider : jsstring -> list jsstring -> outcome (list (list float)))
  (index : IndexFile) (raw : JsValue) (results : list ResultItem)
  (tr : list ProviderCall) :
  run (search base provider index raw)
  = (Returned {| isError := false; content := ResultsPayload results |}, tr) ->
  (NoDup (map id (chunks index)) -> NoDup (map result_id results))
  /\ Forall
       (fun r =>
          exists c,
            In c (chunks index)
            /\ result_id r = id c
            /\ result_title r
               = heading (meta c) ++ lit " (" ++ source (meta c) ++ lit ")"
            /\ result_url r = base ++ source (meta c))
       results.
Proof.
  intros Hrun.
  destruct (search_cases base provider index raw)
    as [[_ H] | [_ [r [H [[e ->] | [qEmb ->]]]]]];
    rewrite H in Hrun; try discriminate.
  injection Hrun as <- _. split.
  - intros Hnd. rewrite map_map. unfold McpRemote.scored.
    destruct (Array_slice0_prefix (topK (normalizeSearchArgs raw))
                (Array_sort by_weighted_desc
                   (map (McpRemote.score_chunk qEmb) (chunks index))))
      as [n ->].
    rewrite <- firstn_map. apply NoDup_firstn.
    eapply Permutation_NoDup;
      [apply Permutation_map, sort_perm|].
    rewrite map_map. exact Hnd.
  - apply Forall_forall. intros r Hr.
    apply in_map_iff in Hr. destruct Hr as [s [<- Hs]].
    apply scored_from_index in Hs. destruct Hs as [c [Hc ->]].
    exists c. repeat split; auto.
Qed.

(** X7, witness: a search on the sample index of two chunks. *)
Lemma search_results_distinct_witness :
  (NoDup (map id (chunks (index_api_faq [1; 0]%float))) ->
   NoDup
     (map result_id
        (map (result_of sample_base)
           (McpRemote.scored [1; 0]%float
              (chunks (index_api_faq [1; 0]%float)) 8))))
  /\ Forall
       (fun r =>
          exists c,
            In c (chunks (index_api_faq [1; 0]%float))
            /\ result_id r = id c
            /\ result_title r
               = heading (meta c) ++ lit " (" ++ source (meta c) ++ lit ")"
            /\ result_url r = sample_base ++ source (meta c))
       (map (result_of sample_base)
          (McpRemote.scored [1; 0]%float
             (chunks (index_api_faq [1; 0]%float)) 8)).
Proof.
  apply (search_results_distinct sample_base
           (provider_returning [1; 0]%float) (index_api_faq [1; 0]%float)
           (JStr (lit "oauth")) _
           [{| call_model := sample_model; call_input := [lit "oauth"] |}]).
  vm_compute. reflexivity.
Defined.

(** ** Rankings *)

(** X8. The cut at [topK] keeps the best: when no weighted score is [NaN],
    the scored chunks split into the returned list and a remainder, and
    every returned entry's weighted score is at least that of every entry
    left out. *)
Theorem scored_keeps_the_best (qEmb : list float)
  (chunks : list IndexedChunk) (topK : Z) :
  no_nan_weighted (map (McpRemote.score_chunk qEmb) chunks) ->
  exists left_out,
    Permutation (map (McpRemote.score_chunk qEmb) chunks)
      (McpRemote.scored qEmb chunks topK ++ left_out)
    /\ forall a b,
        In a (McpRemote.scored qEmb chunks topK) -> In b left_out ->
        (weighted b <=? weighted a)%float = true.
Proof.
  intros Hnan. unfold McpRemote.scored.
  pose proof (sort_descending _ Hnan) as Hd.
  pose proof (sort_perm by_weighted_desc
                (map (McpRemote.score_chunk qEmb) chunks)) as Hp.
  revert Hd Hp.
  generalize (Array_sort by_weighted_desc
                (map (McpRemote.score_chunk qEmb) chunks)).
  intros l Hd Hp.
  destruct (Array_slice0_prefix topK l) as [n ->].
  exists (skipn n l). rewrite firstn_skipn. split; [exact Hp|].
  intros a b Ha Hb. unfold descending in Hd.
  rewrite <- (firstn_skipn n l) in Hd.
  exact (StronglySorted_app_inv _ _ _ Hd a b Ha Hb).
Qed.

(** X8, witness: two chunks of equal raw similarity and [topK = 1]. *)
Lemma scored_keeps_the_best_witness :
  exists left_out,
    Permutation
      (map (McpRemote.score_chunk [1; 1]%float)
         [chunk_faq [1; 0]%float; chunk_api [1; 0]%float])
      (McpRemote.scored [1; 1]%float
         [chunk_faq [1; 0]%float; chunk_api [1; 0]%float] 1 ++ left_out)
    /\ forall a b,
        In a (McpRemote.scored [1; 1]%float
                [chunk_faq [1; 0]%float; chunk_api [1; 0]%float] 1) ->
        In b left_out ->
        (weighted b <=? weighted a)%float = true.
Proof.
  apply (scored_keeps_the_best [1; 1]%float
           [chunk_faq [1; 0]%float; chunk_api [1; 0]%float] 1).
  repeat constructor.
Defined.

(** X9. The weights never create and never hide a [NaN]: in every ranker
    the weighted score of a chunk is [NaN] exactly when its raw cosine
    similarity is (all source and heading weights are finite and
    non-zero).  Hence a ranking is free of [NaN] weighted scores exactly
    when it is free of [NaN] similarities. *)
Theorem weighted_nan_iff_score_nan (qEmb : list float) (query : jsstring) :
  (forall c,
      is_nan (weighted (McpRemote.score_chunk qEmb c))
      = is_nan (cosineSim qEmb (embedding c))
      /\ is_nan (weighted (Server.score_chunk qEmb query c))
         = is_nan (cosineSim qEmb (embedding c))
      /\ is_nan (hit_weighted (StdioServer.hit_of_chunk qEmb c))
         = is_nan (cosineSim qEmb (embedding c)))
  /\ forall chunks,
      no_nan_weighted (map (McpRemote.score_chunk qEmb) chunks)
      <-> Forall (fun c => is_nan (cosineSim qEmb (embedding c)) = false)
            chunks.
Proof.
  assert (H : forall c,
    is_nan (weighted (McpRemote.score_chunk qEmb c))
    = is_nan (cosineSim qEmb (embedding c))).
  { intros c. cbn [McpRemote.score_chunk weighted].
    apply float_mul_nan_finite, McpRemote_sourceWeight_finite. }
  split.
  - intros c. split; [apply H|]. split.
    + cbn [Server.score_chunk weighted].
      rewrite float_mul_nan_finite by apply headingWeight_finite.
      apply float_mul_nan_finite, Server_sourceWeight_finite.
    + cbn [StdioServer.hit_of_chunk hit_weighted].
      apply float_mul_nan_finite, McpRemote_sourceWeight_finite.
  - intros chunks. unfold no_nan_weighted. rewrite Forall_map.
    split; apply Forall_impl; intros c; rewrite H; auto.
Qed.

(** X10. A source outside the weight tables and a query without keyword
    are exactly neutral: the weighted score is the raw similarity, bit for
    bit, in both rankers.  So on an index whose sources are all outside
    the tables, for a query that contains neither the retry nor the
    authentication keyword, the ranker of [scripts/server.ts] and the
    ranker of [src/mcp_remote.ts] return the same list. *)
Theorem unweighted_rankers_agree (qEmb : list float)
  (chunks : list IndexedChunk) (query : jsstring) (topK : Z) :
  Forall
    (fun c =>
       ~ In (source (meta c))
           [lit "docs/api.md"; lit "docs/architecture.md";
            lit "docs/overview.md"; lit "docs/faq.md"])
    chunks ->
  includes query Server.s_retry = false ->
  includes query Server.s_auth = false ->
  Forall (fun s => weighted s = score s) (McpRemote.scored qEmb chunks topK)
  /\ Server.scored qEmb chunks query topK = McpRemote.scored qEmb chunks topK.
Proof.
  intros Hsrc Hr Ha.
  assert (Hn : forall s,
    ~ In s [lit "docs/api.md"; lit "docs/architecture.md";
            lit "docs/overview.md"; lit "docs/faq.md"] ->
    McpRemote.sourceWeight s = 1%float /\ Server.sourceWeight s = 1%float).
  { intros s Hs. unfold McpRemote.sourceWeight, Server.sourceWeight.
    assert (E : forall t,
      In t [lit "docs/api.md"; lit "docs/architecture.md";
            lit "docs/overview.md"; lit "docs/faq.md"] ->
      str_eqb s t = false).
    { intros t Ht. destruct (str_eqb s t) eqn:E; [|reflexivity].
      apply str_eqb_eq in E. subst t. contradiction. }
    rewrite !E by (cbn [In]; auto). split; reflexivity. }
  assert (Hh : forall h, Server.headingWeight h query = 1%float).
  { intros h. unfold Server.headingWeight. rewrite Hr, Ha. reflexivity. }
  split.
  - apply ranking_entries. intros c Hc.
    rewrite Forall_forall in Hsrc.
    cbn [McpRemote.score_chunk weighted score].
    rewrite (proj1 (Hn _ (Hsrc c Hc))). apply float_mul_1_r.
  - unfold Server.scored, McpRemote.scored. do 2 f_equal.
    apply map_ext_in. intros c Hc.
    rewrite Forall_forall in Hsrc.
    unfold Server.score_chunk, McpRemote.score_chunk.
    rewrite Hh, (proj1 (Hn _ (Hsrc c Hc))), (proj2 (Hn _ (Hsrc c Hc))).
    now rewrite !float_mul_1_r.
Qed.

(** X10, witness: two chunks of [docs/guide.md] and the query ["orders"]. *)
Lemma unweighted_rankers_agree_witness :
  Forall (fun s => weighted s = score s)
    (McpRemote.scored [3; 4]%float [chunk_plain; chunk_retry] 8)
  /\ Server.scored [3; 4]%float [chunk_plain; chunk_retry] (lit "orders") 8
     = McpRemote.scored [3; 4]%float [chunk_plain; chunk_retry] 8.
Proof.
  apply (unweighted_rankers_agree [3; 4]%float [chunk_plain; chunk_retry]
           (lit "orders") 8).
  - repeat constructor; cbn; intuition discriminate.
  - reflexivity.
  - reflexivity.
Defined.

(** X11. The rules of [headingWeight].  The factor is one of 1.0, 1.05,
    1.25 and 1.35 (it never lowers a score's magnitude); it is 1.0 for
    every heading when the query contains neither keyword; a retry query
    on a heading with the retry keyword gets 1.35 whatever else matches;
    and the retry block falls through: a query with both keywords, on a
    heading that matches no retry rule but mentions OAuth or
    authentication, gets the authentication factor 1.25. *)
Theorem headingWeight_rules (h q : jsstring) :
  (Server.headingWeight h q = 1.0%float
   \/ Server.headingWeight h q = 1.05%float
   \/ Server.headingWeight h q = 1.25%float
   \/ Server.headingWeight h q = 1.35%float)
  /\ (includes q Server.s_retry = false ->
      includes q Server.s_auth = false ->
      Server.headingWeight h q = 1.0%float)
  /\ (includes q Server.s_retry = true ->
      includes h Server.s_retry = true ->
      Server.headingWeight h q = 1.35%float)
  /\ (includes q Server.s_auth = true ->
      includes h Server.s_retry = false ->
      includes h Server.s_backoff = false ->
      includes h (lit "POST /v1/orders") = false ->
      includes h (lit "OAuth") || includes h Server.s_auth = true ->
      Server.headingWeight h q = 1.25%float).
Proof.
  split; [apply headingWeight_values|].
  unfold Server.headingWeight. repeat split.
  - intros -> ->. reflexivity.
  - intros -> ->. reflexivity.
  - intros -> -> -> -> ->. now destruct (includes q Server.s_retry).
Qed.

(** ** Previews ([scripts/server.ts]) *)

(** X12. A preview is at most [limit] code units long and never longer
    than the text; its only white-space code unit is U+0020, and never two
    in a row; building the preview of a preview changes nothing; and a
    text without white space that fits the limit is its own preview. *)
Theorem preview_properties (limit : nat) (text : jsstring) :
  (List.length (preview limit text) <= Nat.min limit (List.length text))%nat
  /\ (forall c,
         In c (preview limit text) -> is_white_space c = true -> c = 0x20%N)
  /\ (forall l1 a b l2,
         preview limit text = l1 ++ a :: b :: l2 ->
         is_white_space a = true -> is_white_space b = false)
  /\ preview limit (preview limit text) = preview limit text
  /\ (Forall (fun c => is_white_space c = false) text ->
      (List.length text <= limit)%nat ->
      preview limit text = text).
Proof.
  unfold preview. repeat split.
  - rewrite length_firstn.
    pose proof (collapse_length text false). lia.
  - intros c Hc. apply (collapse_spaces text false).
    rewrite <- (firstn_skipn limit (collapse_white_space false text)).
    apply in_or_app. now left.
  - intros l1 a b l2 H.
    apply (collapse_no_run text false l1 a b
             (l2 ++ skipn limit (collapse_white_space false text))).
    rewrite <- (firstn_skipn limit (collapse_white_space false text)) at 1.
    rewrite H, <- app_assoc. reflexivity.
  - rewrite collapse_firstn by apply (proj1 (collapse_idempotent text)).
    rewrite firstn_firstn. now rewrite Nat.min_id.
  - intros Hws Hlen. rewrite collapse_unchanged by exact Hws.
    now apply firstn_all2.
Qed.

(** ** The stdio MCP server ([scripts/server.ts]) *)

(** X13. How [rag_search] ends.  With [OPENAI_API_KEY] unset or empty it
    throws before any request is sent.  With a key it sends one request,
    for the index's model and the query as given (untrimmed); a provider
    failure, or an empty [data] array, escapes the tool as an exception
    (nothing catches it), and a successful answer gives the hit list. *)
Theorem rag_search_outcomes (key : option jsstring)
  (provider : jsstring -> list jsstring -> outcome (list (list float)))
  (index : IndexFile) (query : jsstring) (topK : option Z) :
  let sent := [{| call_model := model index; call_input := [query] |}] in
  (key = None \/ key = Some [] ->
   run (StdioServer.rag_search key provider index query topK)
   = (Thrown (lit "OPENAI_API_KEY is not set."), []))
  /\ (forall k0 ks, key = Some (k0 :: ks) ->
      (forall e, provider (model index) [query] = Thrown e ->
         run (StdioServer.rag_search key provider index query topK)
         = (Thrown e, sent))
      /\ (provider (model index) [query] = Returned [] ->
          run (StdioServer.rag_search key provider index query topK)
          = (Thrown
               (lit "Cannot read properties of undefined (reading 'embedding')"),
             sent))
      /\ (forall qEmb rest,
            provider (model index) [query] = Returned (qEmb :: rest) ->
            exists hits,
              run (StdioServer.rag_search key provider index query topK)
              = (Returned (StdioServer.HitsJson (model index) hits), sent))).
Proof.
  intros sent. subst sent. split.
  - intros [-> | ->]; reflexivity.
  - intros k0 ks ->.
    unfold run, StdioServer.rag_search, StdioServer.embedQuery, embedQuery,
      bind, call_provider, throw, ret.
    repeat split.
    + intros e ->. reflexivity.
    + intros ->. reflexivity.
    + intros qEmb rest ->. eexists. reflexivity.
Qed.

(** X14. [rag_search] ranks as the [search] tool of [src/mcp_remote.ts]
    does.  On a successful provider answer with first embedding [qEmb],
    its hits are, one for one and in the same order, the scored chunks
    that ranking returns for [qEmb] and [k = topK ?? 5]: same ids, same
    raw and weighted scores, each with the preview (280 code units) of its
    chunk's text; so for [k >= 0] there are [min(k, number of chunks)]
    hits. *)
Theorem rag_search_ranks_like_search (k0 : N) (ks : jsstring)
  (provider : jsstring -> list jsstring -> outcome (list (list float)))
  (index : IndexFile) (query : jsstring) (topK : option Z)
  (qEmb : list float) (rest : list (list float)) :
  provider (model index) [query] = Returned (qEmb :: rest) ->
  let k := match topK with Some t => t | None => 5%Z end in
  exists hits,
    fst (run (StdioServer.rag_search (Some (k0 :: ks)) provider index query
                topK))
    = Returned (StdioServer.HitsJson (model index) hits)
    /\ map hit_id hits
       = map (fun s => id (chunk s)) (McpRemote.scored qEmb (chunks index) k)
    /\ map hit_score hits
       = map score (McpRemote.scored qEmb (chunks index) k)
    /\ map hit_weighted hits
       = map weighted (McpRemote.scored qEmb (chunks index) k)
    /\ map hit_preview hits
       = map (fun s => preview 280 (text (chunk s)))
           (McpRemote.scored qEmb (chunks index) k)
    /\ ((0 <= k)%Z ->
        List.length hits
        = Nat.min (Z.to_nat k) (List.length (chunks index))).
Proof.
  intros Hp k.
  pose (f := fun s : Scored =>
    {| hit_id := id (chunk s); hit_score := score s;
       hit_weighted := weighted s;
       hit_source := source (meta (chunk s));
       hit_heading := heading (meta (chunk s));
       hit_part := part (meta (chunk s));
       hit_preview := preview 280 (text (chunk s)) |}).
  exists (map f (McpRemote.scored qEmb (chunks index) k)).
  split.
  - unfold run, StdioServer.rag_search, StdioServer.embedQuery, embedQuery,
      bind, call_provider, ret. rewrite Hp. cbn [fst].
    do 2 f_equal. apply (stdio_sorted_hits f); reflexivity.
  - rewrite !map_map. repeat split.
    intros Hk. rewrite length_map. unfold McpRemote.scored.
    rewrite Array_slice0_length by exact Hk.
    now rewrite sort_length, length_map.
Qed.

(** X14, witness: the sample index, a key, and no [topK]. *)
Lemma rag_search_ranks_like_search_witness :
  exists hits,
    fst (run (StdioServer.rag_search (Some (lit "sk-test"))
                (provider_returning [1; 0]%float)
                (index_api_faq [1; 0]%float) (lit "oauth") None))
    = Returned (StdioServer.HitsJson sample_model hits)
    /\ map hit_id hits
       = map (fun s => id (chunk s))
           (McpRemote.scored [1; 0]%float
              (chunks (index_api_faq [1; 0]%float)) 5)
    /\ map hit_score hits
       = map score
           (McpRemote.scored [1; 0]%float
              (chunks (index_api_faq [1; 0]%float)) 5)
    /\ map hit_weighted hits
       = map weighted
           (McpRemote.scored [1; 0]%float
              (chunks (index_api_faq [1; 0]%float)) 5)
    /\ map hit_preview hits
       = map (fun s => preview 280 (text (chunk s)))
           (McpRemote.scored [1; 0]%float
              (chunks (index_api_faq [1; 0]%float)) 5)
    /\ ((0 <= 5)%Z ->
        List.length hits
        = Nat.min (Z.to_nat 5)
            (List.length (chunks (index_api_faq [1; 0]%float)))).
Proof.
  apply (rag_search_ranks_like_search 115 (lit "k-test")
           (provider_returning [1; 0]%float) (index_api_faq [1; 0]%float)
           (lit "oauth") None [1; 0]%float []).
  reflexivity.
Defined.

(** ** One index, four lookups *)

(** X15. For an id that is non-empty and has no white space at either end,
    the four lookups agree: the [fetch] tool of [src/mcp_remote.ts], the
    earlier string-schema [fetch], [GET /fetch] and [rag_get_chunk] all
    answer from the first chunk of the index that has the id, without a
    provider request; and when no chunk has it they report the miss each
    in its own way: a flagged not-found record, the same record unflagged,
    status 404, and the plain text [NOT_FOUND: ] followed by the id. *)
Theorem lookups_agree (base : jsstring) (index : IndexFile) (i : jsstring) :
  i <> [] -> trim i = i ->
  (forall before c after,
      chunks index = before ++ c :: after -> id c = i ->
      Forall (fun x => id x <> i) before ->
      run (fetch base index (JStr i))
      = (Returned {| isError := false; content := doc_of base c |}, [])
      /\ run (fetch_by_string base index i)
         = (Returned {| isError := false; content := doc_of base c |}, [])
      /\ run (HttpServer.fetch index i)
         = (Returned
              {| HttpServer.status := 200;
                 HttpServer.body :=
                   HttpServer.ChunkBody i (text c) (source (meta c))
                     (heading (meta c)) (part (meta c)) |},
            [])
      /\ run (StdioServer.rag_get_chunk index i)
         = (Returned
              (StdioServer.ChunkJson i (source (meta c)) (heading (meta c))
                 (part (meta c)) (text c)),
            []))
  /\ ((forall c, In c (chunks index) -> id c <> i) ->
      run (fetch base index (JStr i))
      = (Returned {| isError := true; content := not_found_doc base i |}, [])
      /\ run (fetch_by_string base index i)
         = (Returned {| isError := false; content := not_found_doc base i |},
            [])
      /\ run (HttpServer.fetch index i)
         = (Returned
              {| HttpServer.status := 404;
                 HttpServer.body := HttpServer.NotFoundBody |},
            [])
      /\ run (StdioServer.rag_get_chunk index i)
         = (Returned (StdioServer.PlainText (lit "NOT_FOUND: " ++ i)), [])).
Proof.
  intros Hne Htrim.
  assert (Hn : normalizeFetchArgs (JStr i) = i) by reflexivity.
  split.
  - intros before c after Hc Hid Hb.
    pose proof (find_chunk_at index i before c after Hc Hid Hb) as Hf.
    split; [|repeat split].
    + apply fetch_hits; rewrite Hn, Htrim; assumption.
    + unfold run, fetch_by_string. now rewrite Hf.
    + unfold run, HttpServer.fetch. rewrite Hf, Hid. reflexivity.
    + unfold run, StdioServer.rag_get_chunk. rewrite Hf, Hid. reflexivity.
  - intros Hmiss. apply find_chunk_none in Hmiss.
    split; [|repeat split].
    + rewrite (fetch_misses base index (JStr i)); rewrite Hn, Htrim; auto.
    + unfold run, fetch_by_string. now rewrite Hmiss.
    + unfold run, HttpServer.fetch. now rewrite Hmiss.
    + unfold run, StdioServer.rag_get_chunk. now rewrite Hmiss.
Qed.

(** X15, witness: the id of the FAQ chunk, second in the sample index. *)
Lemma lookups_agree_witness :
  run (fetch sample_base (index_api_faq [1; 0]%float)
         (JStr (lit "docs/faq.md#auth#0")))
  = (Returned
       {| isError := false;
          content := doc_of sample_base (chunk_faq [1; 0]%float) |},
     [])
  /\ run (fetch_by_string sample_base (index_api_faq [1; 0]%float)
            (lit "docs/faq.md#auth#0"))
     = (Returned
          {| isError := false;
             content := doc_of sample_base (chunk_faq [1; 0]%float) |},
        [])
  /\ run (HttpServer.fetch (index_api_faq [1; 0]%float)
            (lit "docs/faq.md#auth#0"))
     = (Returned
          {| HttpServer.status := 200;
             HttpServer.body :=
               HttpServer.ChunkBody (lit "docs/faq.md#auth#0") (lit "body")
                 (lit "docs/faq.md") (lit "Authentication") 0%float |},
        [])
  /\ run (StdioServer.rag_get_chunk (index_api_faq [1; 0]%float)
            (lit "docs/faq.md#auth#0"))
     = (Returned
          (StdioServer.ChunkJson (lit "docs/faq.md#auth#0")
             (lit "docs/faq.md") (lit "Authentication") 0%float (lit "body")),
        []).
Proof.
  assert (Hne : lit "docs/faq.md#auth#0" <> []) by discriminate.
  assert (Htrim : trim (lit "docs/faq.md#auth#0") = lit "docs/faq.md#auth#0")
    by (vm_compute; reflexivity).
  apply (proj1 (lookups_agree sample_base (index_api_faq [1; 0]%float)
                  (lit "docs/faq.md#auth#0") Hne Htrim)
           [chunk_api [1; 0]%float] (chunk_faq [1; 0]%float) []).
  - reflexivity.
  - reflexivity.
  - repeat constructor. discriminate.
Defined.

(** ** The HTTP server ([scripts/server.ts]) *)

(** X16. How [POST /search] ends.  It sends one request, for the index's
    model and the query as given; a provider failure escapes the handler
    (no reply is built).  On a successful answer it replies with status
    200, the index's model and one hit for each entry of the server's
    ranking, in order: same id, raw and weighted score, and a preview of
    at most 240 code units; for [topK >= 0] there are
    [min(topK, number of chunks)] hits. *)
Theorem http_search_outcomes
  (provider : jsstring -> list jsstring -> outcome (list (list float)))
  (index : IndexFile) (query : jsstring) (topK : Z) :
  let sent := [{| call_model := model index; call_input := [query] |}] in
  (forall e, provider (model index) [query] = Thrown e ->
     run (HttpServer.search provider index query topK) = (Thrown e, sent))
  /\ (forall qEmb rest,
        provider (model index) [query] = Returned (qEmb :: rest) ->
        exists hits,
          run (HttpServer.search provider index query topK)
          = (Returned
               {| HttpServer.status := 200;
                  HttpServer.body := HttpServer.HitsBody (model index) hits |},
             sent)
          /\ map hit_id hits
             = map (fun s => id (chunk s))
                 (Server.scored qEmb (chunks index) query topK)
          /\ map hit_score hits
             = map score (Server.scored qEmb (chunks index) query topK)
          /\ map hit_weighted hits
             = map weighted (Server.scored qEmb (chunks index) query topK)
          /\ Forall (fun h => (List.length (hit_preview h) <= 240)%nat) hits
          /\ ((0 <= topK)%Z ->
              List.length hits
              = Nat.min (Z.to_nat topK) (List.length (chunks index)))).
Proof.
  intros sent. subst sent.
  unfold run, HttpServer.search, embedQuery, bind, call_provider, ret, throw.
  split.
  - intros e ->. reflexivity.
  - intros qEmb rest ->. eexists. split; [reflexivity|].
    rewrite !map_map. repeat split.
    + apply Forall_forall. intros h Hh. apply in_map_iff in Hh.
      destruct Hh as [s [<- _]]. cbn [HttpServer.hit_of hit_preview].
      unfold preview. rewrite length_firstn. lia.
    + intros Hk. rewrite length_map. unfold Server.scored.
      rewrite Array_slice0_length by exact Hk.
      now rewrite sort_length, length_map.
Qed.

(** X17. [POST /answer] cites what [POST /search] lists: for the same
    text, [topK] and query embedding, the citations are, one for one and
    in the same order, the hits of [/search] (same id, source, heading and
    part), and [used_context_count], the number of retrieved chunks, is
    the number of citations. *)
Theorem answer_cites_search_hits
  (provider : jsstring -> list jsstring -> outcome (list (list float)))
  (index : IndexFile) (question : jsstring) (topK : Z)
  (qEmb : list float) (rest : list (list float)) :
  provider (model index) [question] = Returned (qEmb :: rest) ->
  let cited :=
    HttpServer.formatCitations
      (HttpServer.top qEmb (chunks index) question topK) in
  exists hits,
    fst (run (HttpServer.search provider index question topK))
    = Returned
        {| HttpServer.status := 200;
           HttpServer.body := HttpServer.HitsBody (model index) hits |}
    /\ map HttpServer.cite_id cited = map hit_id hits
    /\ map HttpServer.cite_source cited = map hit_source hits
    /\ map HttpServer.cite_heading cited = map hit_heading hits
    /\ map HttpServer.cite_part cited = map hit_part hits
    /\ List.length (HttpServer.top qEmb (chunks index) question topK)
       = List.length cited.
Proof.
  intros Hp cited. subst cited.
  unfold run, HttpServer.search, embedQuery, bind, call_provider, ret.
  rewrite Hp. cbn [fst]. eexists. split; [reflexivity|].
  unfold HttpServer.formatCitations, HttpServer.top.
  rewrite !map_map, !length_map. repeat split.
Qed.

(** X17, witness: a retry question on two chunks, [topK = 1]. *)
Lemma answer_cites_search_hits_witness :
  exists hits,
    fst (run (HttpServer.search (provider_returning [3; 4]%float)
                {| model := sample_model;
                   chunks := [chunk_plain; chunk_retry] |}
                Server.s_retry 1))
    = Returned
        {| HttpServer.status := 200;
           HttpServer.body := HttpServer.HitsBody sample_model hits |}
    /\ map HttpServer.cite_id
         (HttpServer.formatCitations
            (HttpServer.top [3; 4]%float [chunk_plain; chunk_retry]
               Server.s_retry 1))
       = map hit_id hits
    /\ map HttpServer.cite_source
         (HttpServer.formatCitations
            (HttpServer.top [3; 4]%float [chunk_plain; chunk_retry]
               Server.s_retry 1))
       = map hit_source hits
    /\ map HttpServer.cite_heading
         (HttpServer.formatCitations
            (HttpServer.top [3; 4]%float [chunk_plain; chunk_retry]
               Server.s_retry 1))
       = map hit_heading hits
    /\ map HttpServer.cite_part
         (HttpServer.formatCitations
            (HttpServer.top [3; 4]%float [chunk_plain; chunk_retry]
               Server.s_retry 1))
       = map hit_part hits
    /\ List.length
         (HttpServer.top [3; 4]%float [chunk_plain; chunk_retry]
            Server.s_retry 1)
       = List.length
           (HttpServer.formatCitations
              (HttpServer.top [3; 4]%float [chunk_plain; chunk_retry]
                 Server.s_retry 1)).
Proof.
  apply (answer_cites_search_hits (provider_returning [3; 4]%float)
           {| model := sample_model; chunks := [chunk_plain; chunk_retry] |}
           Server.s_retry 1 [3; 4]%float []).
  reflexivity.
Defined.
